(** * The simulated mainframe exporter (app.py)

    A shallow embedding of the exporter's simulation engine: the clamp, the
    configuration list parser, the per-LPAR state store, the random walk, the
    derived address-space figures, the transaction sampler and the driver
    loop, followed by the properties the design document states about them.

    Numbers.  Python floats are read as exact rationals ([Q]); the
    non-finite floats, and so the overflow of an operation, are outside the
    model.  Rounding is left out where a value is only compared, clamped or
    reported.  It is kept where a float is truncated to an integer, which
    rounding can move across an integer: the transaction count is computed
    with every operation rounded to the nearest binary64 float ([fl]).  The
    integers the program keeps as [int] ([mem_total], [mips_cap], the
    transaction count) are [Z].

    Text.  A [str] is kept as the bytes of its UTF-8 encoding, which is what
    the process environment holds; the whitespace of [str.strip] is the
    Unicode whitespace, one to three bytes long.

    Library calls.  The pseudo-random generator of the [random] module, the
    power operator on floats and the wall clock are not part of the
    repository.  The generator and the power operator are an interface
    ([Interp]) with the laws the documentation of the [random] module gives
    ([InterpLaws]); the wall clock is a stream of readings kept in the
    world.  [Lcg] is a small concrete generator on which the model runs.

    Effects.  The program draws random numbers, reads the clock, writes to
    the metric registry and may raise: programs are functions from a world
    to a result and a world ([Py]). *)

From Stdlib Require Import QArith Qround Qabs Lqa ZArith Lia.
From Stdlib Require Ascii String.
From stdpp Require Import gmap strings list fin_maps.

Local Open Scope Q_scope.

(** ** Python numbers *)

Module PyNum.

(** [a < b] on floats, as a boolean. *)
Definition Qltb (a b : Q) : bool := negb (Qle_bool b a).

(** [max(a, b)]: the first argument, unless the second is strictly greater. *)
Definition py_max (a b : Q) : Q := if Qltb a b then b else a.

(** [min(a, b)]: the first argument, unless the second is strictly smaller. *)
Definition py_min (a b : Q) : Q := if Qltb b a then b else a.

(** [int(x)]: truncation toward zero. *)
Definition py_int (x : Q) : Z := Z.quot (Qnum x) (Zpos (Qden x)).

(** [round(x)]: to the nearest integer, ties to the even one. *)
Definition py_round (x : Q) : Z :=
  let f := Qfloor x in
  let r := x - inject_Z f in
  if Qltb r (1 # 2) then f
  else if Qltb (1 # 2) r then (f + 1)%Z
  else if Z.even f then f else (f + 1)%Z.

(** [x or y] on numbers: [y] when [x] is zero. *)
Definition py_or (x y : Q) : Q := if Qeq_bool x 0 then y else x.

(** [sum(xs)]: left to right from the integer 0. *)
Definition py_sum (xs : list Q) : Q := fold_left Qplus xs 0.

(** [2 ** e] for an integer [e] of either sign. *)
Definition two_pow (e : Z) : Q :=
  if (0 <=? e)%Z then inject_Z (2 ^ e) else 1 / inject_Z (2 ^ (- e)).

(** The binade of a non-zero [x]: the [k] with [2 ** k <= |x| < 2 ** (k + 1)]. *)
Definition binade (x : Q) : Z :=
  let k := (Z.log2 (Z.abs (Qnum x)) - Z.log2 (Zpos (Qden x)))%Z in
  if Qle_bool (two_pow k) (Qabs x) then k else (k - 1)%Z.

(** The float an operation returns for the exact result [x]: the nearest
    binary64 number, 53 significant bits, ties to the even significand, with
    gradual underflow below [2 ** -1022]. *)
Definition fl (x : Q) : Q :=
  if Qeq_bool x 0 then 0
  else
    let e := Z.max (binade x - 52) (-1074) in
    inject_Z (py_round (x / two_pow e)) * two_pow e.



End PyNum.
Export PyNum.

(** ** [clamp] *)

Definition clamp (value lo hi : Q) : Q := py_max lo (py_min hi value).

(** ** The configuration: [env_list] and the module-level constants *)

Module Config.

(** The whitespace of [str.strip()], the characters [str.isspace] holds
    of, by the length of their UTF-8 encoding.  One byte: U+0009 to U+000D
    and U+001C to U+0020. *)
Definition space1 (a : Ascii.ascii) : bool :=
  let n := Ascii.nat_of_ascii a in
  ((9 <=? n) && (n <=? 13) || (28 <=? n) && (n <=? 32))%nat.

(** Two bytes: U+0085 (C2 85) and U+00A0 (C2 A0). *)
Definition space2 (a b : Ascii.ascii) : bool :=
  let x := Ascii.nat_of_ascii a in
  let y := Ascii.nat_of_ascii b in
  ((x =? 194) && ((y =? 133) || (y =? 160)))%nat.

(** Three bytes: U+1680 (E1 9A 80), U+2000 to U+200A (E2 80 80 to E2 80 8A),
    U+2028, U+2029, U+202F (E2 80 A8, A9, AF), U+205F (E2 81 9F) and U+3000
    (E3 80 80). *)
Definition space3 (a b c : Ascii.ascii) : bool :=
  let x := Ascii.nat_of_ascii a in
  let y := Ascii.nat_of_ascii b in
  let z := Ascii.nat_of_ascii c in
  ((x =? 225) && (y =? 154) && (z =? 128)
   || (x =? 226) && (y =? 128) &&
      ((128 <=? z) && (z <=? 138) || (z =? 168) || (z =? 169) || (z =? 175))
   || (x =? 226) && (y =? 129) && (z =? 159)
   || (x =? 227) && (y =? 128) && (z =? 128))%nat.

(** The number of bytes of the whitespace character a string starts with;
    0 when it starts with none. *)
Definition space_len (s : string) : nat :=
  match s with
  | String a (String b (String c _)) =>
      if space1 a then 1 else if space2 a b then 2 else if space3 a b c then 3 else 0
  | String a (String b EmptyString) =>
      if space1 a then 1 else if space2 a b then 2 else 0
  | String a EmptyString => if space1 a then 1 else 0
  | EmptyString => 0
  end%nat.

(** [s.lstrip()]: the leading whitespace characters are dropped. *)
Fixpoint lstrip (s : string) : string :=
  match s with
  | EmptyString => EmptyString
  | String a r1 =>
      if space1 a then lstrip r1
      else
        match r1 with
        | String b r2 =>
            if space2 a b then lstrip r2
            else
              match r2 with
              | String c r3 => if space3 a b c then lstrip r3 else s
              | EmptyString => s
              end
        | EmptyString => s
        end
  end.

(** [p + q] on strings. *)
Fixpoint cat (p q : string) : string :=
  match p with
  | EmptyString => q
  | String c p' => String c (cat p' q)
  end.

(** A whitespace character is kept when something is kept after it. *)
Definition keep (pre kept : string) : string :=
  match kept with
  | EmptyString => EmptyString
  | String _ _ => cat pre kept
  end.

(** [s.rstrip()]: the trailing whitespace characters are dropped. *)
Fixpoint rstrip (s : string) : string :=
  match s with
  | EmptyString => EmptyString
  | String a r1 =>
      if space1 a then keep (String a EmptyString) (rstrip r1)
      else
        match r1 with
        | String b r2 =>
            if space2 a b then keep (String a (String b EmptyString)) (rstrip r2)
            else
              match r2 with
              | String c r3 =>
                  if space3 a b c
                  then keep (String a (String b (String c EmptyString))) (rstrip r3)
                  else String a (rstrip r1)
              | EmptyString => String a (rstrip r1)
              end
        | EmptyString => String a (rstrip r1)
        end
  end.

(** [p.strip()] *)
Definition strip (s : string) : string := rstrip (lstrip s).

(** [raw.split(",")]: always at least one piece. *)
Fixpoint split_comma (s : string) : list string :=
  match s with
  | EmptyString => [EmptyString]
  | String c rest =>
      if Ascii.eqb c (Ascii.ascii_of_nat 44) then EmptyString :: split_comma rest
      else match split_comma rest with
           | [] => [String c EmptyString]
           | piece :: pieces => String c piece :: pieces
           end
  end.

(** Truth value of a string: non-empty. *)
Definition truthy (s : string) : bool :=
  match s with EmptyString => false | String _ _ => true end.

(** [[p.strip() for p in csv.split(",") if p.strip()]] *)
Definition tokens (csv : string) : list string :=
  List.filter truthy (List.map strip (split_comma csv)).

(** [os.getenv(name, default)] over the process environment. *)
Definition getenv (env : gmap string string) (name default : string) : string :=
  match env !! name with
  | Some v => v
  | None => default
  end.

(** [env_list]: [parts or <tokens of the default>]. *)
Definition env_list (env : gmap string string) (name default_csv : string)
  : list string :=
  let raw := getenv env name default_csv in
  let parts := tokens raw in
  match parts with
  | [] => tokens default_csv
  | _ :: _ => parts
  end.

(** The module-level constants the simulation reads.  [float(...)] of the
    interval text is the interpreter's; its result is taken as given. *)
Record config := mkConfig {
  LPARS : list string;
  SYSPLEX : string;
  INTERVAL : Q
}.


Definition ADDRESS_SPACES : list string :=
  ["DFHSIP"; "DBM1"; "MSTR"; "TCPIP"; "VTAM"; "JES2"; "SMF"; "RMF"; "IMSCTL"; "MQM"].

Definition SERVICES : list string := ["CICS"; "DB2"; "IMS"; "MQ"].

End Config.
Export Config.

(** ** What the interpreter provides *)

(** The generator of the [random] module ([seed], [random], the index draw
    behind [choice], [lognormvariate]) and the power operator on floats. *)
Class Interp (G : Type) := {
  seed : Z -> G;
  random : G -> Q * G;
  randbelow : nat -> G -> nat * G;
  lognormvariate : Q -> Q -> G -> Q * G;
  float_pow : Q -> Q -> Q
}.

(** What the library documents of them: [random()] lies in [0, 1), the index
    drawn for a sequence of [n] items is below [n], and a log-normal variate
    is strictly positive. *)
Class InterpLaws (G : Type) `{Interp G} : Prop := {
  random_unit : forall g, 0 <= fst (random g) /\ fst (random g) < 1;
  randbelow_lt : forall n g, (0 < n)%nat -> (fst (randbelow n g) < n)%nat;
  lognormvariate_pos : forall mu sigma g, 0 < fst (lognormvariate mu sigma g)
}.

(** ** The metric registry *)

Inductive Metric :=
| CPU | ZIIP | MIPS | IOPS | MEM_TOTAL | MEM_USED | JOBQ | CFQ | UPTIME
| AS_CPU | AS_RSS | TXN_LAT | TXN_TOTAL.

(** [.set(v)] on a gauge, [.observe(v)] on the histogram, [.inc()] on the
    counter. *)
Inductive Op :=
| GaugeSet (v : Q)
| Observe (v : Q)
| Inc.

(** One call on a labelled metric. *)
Record Emit := mkEmit {
  e_metric : Metric;
  e_labels : list string;
  e_op : Op
}.

(** ** The per-LPAR record of the state dictionary *)

Record LparState := mkLpar {
  cpu : Q;
  ziip : Q;
  mips_cap : Z;
  iops : Q;
  mem_total : Z;
  mem_used : Q;
  jobq : Q;
  cfq : Q
}.

Definition set_cpu (v : Q) (s : LparState) : LparState :=
  mkLpar v (ziip s) (mips_cap s) (iops s) (mem_total s) (mem_used s) (jobq s) (cfq s).
Definition set_ziip (v : Q) (s : LparState) : LparState :=
  mkLpar (cpu s) v (mips_cap s) (iops s) (mem_total s) (mem_used s) (jobq s) (cfq s).
Definition set_iops (v : Q) (s : LparState) : LparState :=
  mkLpar (cpu s) (ziip s) (mips_cap s) v (mem_total s) (mem_used s) (jobq s) (cfq s).
Definition set_jobq (v : Q) (s : LparState) : LparState :=
  mkLpar (cpu s) (ziip s) (mips_cap s) (iops s) (mem_total s) (mem_used s) v (cfq s).
Definition set_cfq (v : Q) (s : LparState) : LparState :=
  mkLpar (cpu s) (ziip s) (mips_cap s) (iops s) (mem_total s) (mem_used s) (jobq s) v.
Definition set_mem_used (v : Q) (s : LparState) : LparState :=
  mkLpar (cpu s) (ziip s) (mips_cap s) (iops s) (mem_total s) v (jobq s) (cfq s).

(** ** Exceptions and results *)

Inductive PyError := KeyError | ZeroDivisionError | ValueError.

Inductive Res (A : Type) :=
| Ok (a : A)
| Raise (e : PyError).
Arguments Ok {A} a.
Arguments Raise {A} e.

(** ** The transaction figures, as the sampler computes them *)

Definition txn_base (service : string) : Q :=
  if String.eqb service "CICS" then 250 else 160.

(** [base * (0.5 + s["cpu"] / 200.0) * u], each operation rounded. *)
Definition txn_tps (service : string) (cpu_percent u : Q) : Q :=
  fl (fl (txn_base service * fl (0.5 + fl (cpu_percent / 200))) * u).

(** [int(max(10, tps * INTERVAL / 5.0))], each operation rounded; the
    product is taken to be in the range of the floats ([int] of an infinity
    raises OverflowError in the interpreter). *)
Definition txn_count (tps interval : Q) : Z :=
  py_int (py_max 10 (fl (fl (tps * interval) / 5))).

(** The (mu, sigma) of the branch taken for a service. *)
Definition latency_profile (service : string) : Q * Q :=
  if String.eqb service "CICS" then (-3.2, 0.55)
  else if String.eqb service "DB2" then (-2.8, 0.60)
  else if String.eqb service "IMS" then (-3.0, 0.55)
  else (-3.4, 0.50).

(** [lat *= (1.0 + (s["jobq"] / 400.0))] *)
Definition pressure (lat jobq_depth : Q) : Q := lat * (1 + jobq_depth / 400).


(** ** Programs *)

(** The world a program runs in: the generator's state, the wall clock's
    readings still to come, and the calls made on the registry so far. *)
Record World (G : Type) := mkWorld {
  w_rng : G;
  w_clock : nat -> Q;
  w_sink : list Emit
}.
Arguments mkWorld {G} _ _ _.
Arguments w_rng {G} _.
Arguments w_clock {G} _ _.
Arguments w_sink {G} _.

Definition Py (G A : Type) : Type := World G -> Res A * World G.

Definition ret {G A} (a : A) : Py G A := fun w => (Ok a, w).

Definition raise {G A} (e : PyError) : Py G A := fun w => (Raise e, w).

Definition bind {G A B} (m : Py G A) (k : A -> Py G B) : Py G B :=
  fun w =>
    match m w with
    | (Ok a, w') => k a w'
    | (Raise e, w') => (Raise e, w')
    end.

Notation "'let*' x ':=' m 'in' k" := (bind m (fun x => k))
  (at level 10, x name, m at level 100, k at level 200).
Notation "m ';;;' k" := (bind m (fun _ => k))
  (at level 100, k at level 200, right associativity).

(** A draw from the generator. *)
Definition draw {G A} (f : G -> A * G) : Py G A :=
  fun w =>
    let (a, g') := f (w_rng w) in
    (Ok a, mkWorld g' (w_clock w) (w_sink w)).

(** [datetime.now(timezone.utc).timestamp()] *)
Definition now {G} : Py G Q :=
  fun w => (Ok (w_clock w O), mkWorld (w_rng w) (fun n => w_clock w (S n)) (w_sink w)).

(** A call on the registry. *)
Definition emit {G} (e : Emit) : Py G unit :=
  fun w => (Ok tt, mkWorld (w_rng w) (w_clock w) (w_sink w ++ [e])).

Definition gauge_set {G} (m : Metric) (labels : list string) (v : Q) : Py G unit :=
  emit (mkEmit m labels (GaugeSet v)).

(** [for x in xs: body] *)
Fixpoint for_each {G A} (xs : list A) (body : A -> Py G unit) : Py G unit :=
  match xs with
  | [] => ret tt
  | x :: rest => body x ;;; for_each rest body
  end.

(** [for _ in range(n): body] *)
Fixpoint for_range {G} (n : nat) (body : Py G unit) : Py G unit :=
  match n with
  | O => ret tt
  | S k => body ;;; for_range k body
  end.

(** A loop over [xs] that threads a value through its iterations. *)
Fixpoint fold_each {G A S} (xs : list A) (body : A -> S -> Py G S) (acc : S) : Py G S :=
  match xs with
  | [] => ret acc
  | x :: rest => let* acc' := body x acc in fold_each rest body acc'
  end.

(** [w / wsum] *)
Definition py_div {G} (x y : Q) : Py G Q :=
  if Qeq_bool y 0 then raise ZeroDivisionError else ret (x / y).

(** [state[lpar]] *)
Definition getitem {G} (state : gmap string LparState) (lpar : string) : Py G LparState :=
  match state !! lpar with
  | Some s => ret s
  | None => raise KeyError
  end.

(** [time.sleep(secs)]: a negative length is a [ValueError]. *)
Definition sleep {G} (secs : Q) : Py G unit :=
  if Qltb secs 0 then raise ValueError else ret tt.

Section Simulation.

Context {G : Type} `{Interp G}.

(** [random.uniform(a, b)] is [a + (b - a) * random()]. *)
Definition uniform (a b : Q) (g : G) : Q * G :=
  let (u, g') := random g in (a + (b - a) * u, g').

(** [random.choice] of the literal list [x :: xs]. *)
Definition choice {A} (x : A) (xs : list A) (g : G) : A * G :=
  let (i, g') := randbelow (length (x :: xs)) g in (nth i (x :: xs) x, g').

(** *** [init_state] *)

(** The body of the loop of [init_state]: the record of one LPAR. *)
Definition init_lpar : Py G LparState :=
  let* gib := draw (choice 32%Z [48; 64; 96; 128]%Z) in
  let total_mem := (gib * 1024 ^ 3)%Z in
  let* r := draw (uniform 0.45 0.75) in
  let used_mem := inject_Z total_mem * r in
  let* c := draw (uniform 10 70) in
  let* z := draw (uniform 5 60) in
  let* cap := draw (choice 8000%Z [10000; 12000; 16000]%Z) in
  let* i := draw (uniform 500 3500) in
  let* j := draw (uniform 0 40) in
  let* f := draw (uniform 1 20) in
  ret (mkLpar c z cap i total_mem used_mem j f).

Definition init_state (lpars : list string) : Py G (gmap string LparState) :=
  fold_each lpars
    (fun lpar state => let* s := init_lpar in ret (<[lpar := s]> state))
    ∅.

(** *** One LPAR in one tick *)

(** The random walk, the MIPS figure and the memory drift: the new record
    and the MIPS consumed. *)
Definition walk (s : LparState) : Py G (LparState * Q) :=
  let* u := draw (uniform (-6) 6) in
  let s := set_cpu (clamp (cpu s + u + (35 - cpu s) * 0.03) 0 100) s in
  let* u := draw (uniform (-6) 6) in
  let s := set_ziip (clamp (ziip s + u + (25 - ziip s) * 0.03) 0 100) s in
  let* u := draw (uniform (-250) 250) in
  let s := set_iops (clamp (iops s + u) 0 8000) s in
  let* u := draw (uniform (-3) 3) in
  let s := set_jobq (clamp (jobq s + u) 0 200) s in
  let* u := draw (uniform (-2) 2) in
  let s := set_cfq (clamp (cfq s + u + (10 - cfq s) * 0.02) 0 80) s in
  let* u := draw (uniform 0.85 1.15) in
  let mips := inject_Z (mips_cap s) * (cpu s / 100) * u in
  let* u := draw (uniform (-0.7) 0.9) in
  let drift := u * inject_Z (1024 ^ 3) in
  let s := set_mem_used
             (clamp (mem_used s + drift)
                    (inject_Z (mem_total s) * 0.30)
                    (inject_Z (mem_total s) * 0.97)) s in
  ret (s, mips).

(** The eight gauges of the LPAR. *)
Definition publish (cfg : config) (lpar : string) (s : LparState) (mips uptime : Q)
  : Py G unit :=
  let labels := [lpar; SYSPLEX cfg] in
  gauge_set CPU labels (cpu s) ;;;
  gauge_set ZIIP labels (ziip s) ;;;
  gauge_set MIPS labels mips ;;;
  gauge_set IOPS labels (iops s) ;;;
  gauge_set MEM_USED labels (mem_used s) ;;;
  gauge_set JOBQ labels (jobq s) ;;;
  gauge_set CFQ labels (cfq s) ;;;
  gauge_set UPTIME labels uptime.

(** [[random.random() ** 1.8 for _ in ADDRESS_SPACES]] *)
Fixpoint draw_weights {A} (xs : list A) : Py G (list Q) :=
  match xs with
  | [] => ret []
  | _ :: rest =>
      let* u := draw random in
      let* ws := draw_weights rest in
      ret (float_pow u 1.8 :: ws)
  end.

(** [zip(xs, ys)] *)
Fixpoint zip {A B} (xs : list A) (ys : list B) : list (A * B) :=
  match xs, ys with
  | x :: xs', y :: ys' => (x, y) :: zip xs' ys'
  | _, _ => []
  end.

(** The body of the address-space loop. *)
Definition address_space (cfg : config) (lpar : string) (s : LparState) (wsum : Q)
    (aw : string * Q) : Py G unit :=
  let* share := py_div (snd aw) wsum in
  let* u := draw (uniform 0.7 1.3) in
  let as_cpu := cpu s * share * u in
  let as_cpu := clamp as_cpu 0 100 in
  gauge_set AS_CPU [lpar; SYSPLEX cfg; fst aw] as_cpu ;;;
  let* u := draw (uniform 0.6 1.6) in
  let rss := mem_used s / inject_Z (Z.of_nat (length ADDRESS_SPACES)) * u in
  gauge_set AS_RSS [lpar; SYSPLEX cfg; fst aw] rss.

Definition address_spaces (cfg : config) (lpar : string) (s : LparState) : Py G unit :=
  let* weights := draw_weights ADDRESS_SPACES in
  let wsum := py_or (py_sum weights) 1 in
  for_each (zip ADDRESS_SPACES weights) (address_space cfg lpar s wsum).

(** The body of the inner loop: one transaction. *)
Definition transaction (cfg : config) (lpar : string) (s : LparState) (service : string)
  : Py G unit :=
  let* lat := draw (lognormvariate (fst (latency_profile service))
                                   (snd (latency_profile service))) in
  let lat := pressure lat (jobq s) in
  emit (mkEmit TXN_LAT [lpar; SYSPLEX cfg; service] (Observe lat)) ;;;
  emit (mkEmit TXN_TOTAL [lpar; SYSPLEX cfg; service] Inc).

(** The body of the loop over the services. *)
Definition sample_service (cfg : config) (lpar : string) (s : LparState) (service : string)
  : Py G unit :=
  let* u := draw (uniform 0.8 1.3) in
  let tps := txn_tps service (cpu s) u in
  let count := txn_count tps (INTERVAL cfg) in
  for_range (Z.to_nat count) (transaction cfg lpar s service).

(** The body of the loop over [LPARS] inside [while True]. *)
Definition tick_lpar (cfg : config) (uptime : Q) (lpar : string)
    (state : gmap string LparState) : Py G (gmap string LparState) :=
  let* s := getitem state lpar in
  let* sm := walk s in
  let s := fst sm in
  publish cfg lpar s (snd sm) uptime ;;;
  address_spaces cfg lpar s ;;;
  for_each SERVICES (sample_service cfg lpar s) ;;;
  ret (<[lpar := s]> state).

(** [for lpar in LPARS: ...] inside [while True]. *)
Definition tick_lpars (cfg : config) (uptime : Q) (state : gmap string LparState)
  : Py G (gmap string LparState) :=
  fold_each (LPARS cfg) (tick_lpar cfg uptime) state.

(** One iteration of [while True], the sleep included. *)
Definition tick (cfg : config) (started : Q) (state : gmap string LparState)
  : Py G (gmap string LparState) :=
  let* t := now in
  let* state' := tick_lpars cfg (t - started) state in
  sleep (INTERVAL cfg) ;;;
  ret state'.

(** [ticks] iterations of [while True]. *)
Fixpoint run_ticks (cfg : config) (started : Q) (ticks : nat)
    (state : gmap string LparState) : Py G (gmap string LparState) :=
  match ticks with
  | O => ret state
  | S k => let* state' := tick cfg started state in run_ticks cfg started k state'
  end.

(** [simulate_loop], cut after [ticks] iterations of its loop. *)
Definition simulate_loop (cfg : config) (ticks : nat) : Py G (gmap string LparState) :=
  let* started := now in
  let* state := init_state (LPARS cfg) in
  for_each (LPARS cfg)
    (fun lpar =>
       let* s := getitem state lpar in
       gauge_set MEM_TOTAL [lpar; SYSPLEX cfg] (inject_Z (mem_total s))) ;;;
  run_ticks cfg started ticks state.

(** The world at start-up: [random.seed(n)] has run, nothing is emitted. *)
Definition boot (n : Z) (clock : nat -> Q) : World G := mkWorld (seed n) clock [].

(** The program run from start-up for [ticks] iterations. *)
Definition main (cfg : config) (n : Z) (clock : nat -> Q) (ticks : nat)
  : Res (gmap string LparState) * World G :=
  simulate_loop cfg ticks (boot n clock).

End Simulation.

(** ** A concrete generator *)

(** A linear congruential generator on 31 bits, standing in for the
    interpreter's generator when the model is run on concrete inputs.  Its
    log-normal variate is a positive rational read off the next state and
    its power rounds the exponent to an integer; the properties below are
    proved for every lawful generator, not for this one. *)
Module Lcg.

Definition step (s : Z) : Z := ((s * 1103515245 + 12345) mod 2147483648)%Z.

Definition next_unit (s : Z) : Q * Z :=
  let s' := step s in (s' # 2147483648, s').

Definition next_below (n : nat) (s : Z) : nat * Z :=
  let s' := step s in (Z.to_nat (s' mod Z.of_nat n), s').

Definition next_lognormal (mu sigma : Q) (s : Z) : Q * Z :=
  let s' := step s in ((s' + 1) # 33554432, s').

#[global] Instance interp : Interp Z := {|
  seed := fun n => n;
  random := next_unit;
  randbelow := next_below;
  lognormvariate := next_lognormal;
  float_pow := fun x y => Qpower x (py_round y)
|}.

End Lcg.

(** ** Concrete inputs *)

(** A wall clock that advances [step] seconds from one reading to the next. *)
Definition steady_clock (step : Z) (n : nat) : Q := inject_Z (step * Z.of_nat n).

(** The default configuration: one LPAR, ticks of five seconds. *)
Definition demo_cfg : config := mkConfig ["LPAR1"] "PLEX1" 5.

(** A record within every declared interval: 32 GiB, 20 GiB of them used. *)
Definition demo_lpar : LparState :=
  mkLpar 40 30 8000 1000 (32 * 1024 ^ 3) (inject_Z (20 * 1024 ^ 3)) 10 5.

Definition demo_state : gmap string LparState := {["LPAR1" := demo_lpar]}.


(** A record with a negative total, whose memory interval is empty. *)
Definition collapsed_lpar : LparState := mkLpar 40 30 8000 1000 (-1) 0 10 5.

(** Records forced to a job queue depth of 400 and of 0. *)
Definition deep_lpar : LparState := set_jobq 400 demo_lpar.
Definition idle_lpar : LparState := set_jobq 0 demo_lpar.

(** ** The vocabulary of the properties *)

(** [post m w Q E]: run from [w], the program [m] either returns a value and
    a world that satisfy [Q], or raises an exception in a world that
    satisfies [E]. *)
Definition post {G A} (m : Py G A) (w : World G)
    (Q : A -> World G -> Prop) (E : PyError -> World G -> Prop) : Prop :=
  match m w with
  | (Ok a, w') => Q a w'
  | (Raise e, w') => E e w'
  end.

(** No exception is allowed. *)
Definition never {G} : PyError -> World G -> Prop := fun _ _ => False.

(** [returns m w Q]: run from [w], the program [m] returns, and [Q] holds. *)
Definition returns {G A} (m : Py G A) (w : World G) (Q : A -> World G -> Prop) : Prop :=
  post m w Q never.

(** [emits m w P]: run from [w], the program [m] returns a value [a] after
    adding to the registry a list of calls [evs] with [P a evs]. *)
Definition emits {G A} (m : Py G A) (w : World G) (P : A -> list Emit -> Prop) : Prop :=
  returns m w (fun a w' => exists evs, w_sink w' = w_sink w ++ evs /\ P a evs).

(** The declared interval of every bounded scalar. *)
Definition in_bounds (s : LparState) : Prop :=
  (0 <= cpu s /\ cpu s <= 100) /\
  (0 <= ziip s /\ ziip s <= 100) /\
  (0 <= iops s /\ iops s <= 8000) /\
  (0 <= jobq s /\ jobq s <= 200) /\
  (0 <= cfq s /\ cfq s <= 80) /\
  (inject_Z (mem_total s) * 0.30 <= mem_used s /\
   mem_used s <= inject_Z (mem_total s) * 0.97).

(** The memory tiers and MIPS ratings of [init_state]. *)
Definition MEMORY_TIERS : list Z := [32; 48; 64; 96; 128]%Z.
Definition MIPS_RATINGS : list Z := [8000; 10000; 12000; 16000]%Z.

(** The ranges of a freshly initialised record. *)
Definition init_ranges (s : LparState) : Prop :=
  (exists gib, In gib MEMORY_TIERS /\ mem_total s = (gib * 1024 ^ 3)%Z) /\
  (exists r, 0.45 <= r /\ r <= 0.75 /\ mem_used s = inject_Z (mem_total s) * r) /\
  In (mips_cap s) MIPS_RATINGS /\
  (10 <= cpu s /\ cpu s <= 70) /\
  (5 <= ziip s /\ ziip s <= 60) /\
  (500 <= iops s /\ iops s <= 3500) /\
  (0 <= jobq s /\ jobq s <= 40) /\
  (1 <= cfq s /\ cfq s <= 20).

(** Every configured LPAR has a record. *)
Definition covers (cfg : config) (state : gmap string LparState) : Prop :=
  forall lpar, In lpar (LPARS cfg) -> exists s, state !! lpar = Some s.

(** Every record of the state satisfies [P]. *)
Definition every (P : LparState -> Prop) (state : gmap string LparState) : Prop :=
  forall lpar s, state !! lpar = Some s -> P s.

(** The fixed parameters of every record of [state] are those of [state0]. *)
Definition same_fixed (state0 state : gmap string LparState) : Prop :=
  forall lpar,
    match state0 !! lpar, state !! lpar with
    | Some s0, Some s => mem_total s = mem_total s0 /\ mips_cap s = mips_cap s0
    | None, None => True
    | _, _ => False
    end.

(** An address-space CPU share lies in [0, 100]. *)
Definition share_ok (e : Emit) : Prop :=
  match e_metric e, e_op e with
  | AS_CPU, GaugeSet v => 0 <= v /\ v <= 100
  | AS_CPU, _ => False
  | _, _ => True
  end.

(** A latency observation is strictly positive. *)
Definition latency_ok (e : Emit) : Prop :=
  match e_op e with
  | Observe v => 0 < v
  | _ => True
  end.

Definition is_as_cpu (e : Emit) : bool :=
  match e_metric e with AS_CPU => true | _ => false end.

Definition is_observe (e : Emit) : bool :=
  match e_op e with Observe _ => true | _ => false end.

Definition is_inc (e : Emit) : bool :=
  match e_op e with Inc => true | _ => false end.


(** Events that do not report the wall clock. *)
Definition timeless (e : Emit) : bool :=
  match e_metric e with UPTIME => false | _ => true end.

(** The uptime values among events, in order. *)
Definition uptimes (evs : list Emit) : list Op :=
  List.map e_op (List.filter (fun e => negb (timeless e)) evs).

(** Two worlds that differ at most in the clock and in what was reported
    of it. *)
Definition same_but_clock {G} (w1 w2 : World G) : Prop :=
  w_rng w1 = w_rng w2 /\
  List.filter timeless (w_sink w1) = List.filter timeless (w_sink w2).

(** Two programs that, from such worlds, give the same result and lead to
    such worlds. *)
Definition agree {G A} (m1 m2 : Py G A) : Prop :=
  forall w1 w2, same_but_clock w1 w2 ->
    fst (m1 w1) = fst (m2 w2) /\ same_but_clock (snd (m1 w1)) (snd (m2 w2)).


(** The two calls of one transaction, for the generator state [g] it draws
    from. *)
Definition transaction_calls {G} `{Interp G} (cfg : config) (lpar : string) (s : LparState)
    (service : string) (g : G) : list Emit :=
  [mkEmit TXN_LAT [lpar; SYSPLEX cfg; service]
     (Observe (pressure (fst (lognormvariate (fst (latency_profile service))
                                             (snd (latency_profile service)) g))
                        (jobq s)));
   mkEmit TXN_TOTAL [lpar; SYSPLEX cfg; service] Inc].

(** A latency observation is a log-normal draw under the pressure of a
    non-negative queue depth. *)
Definition latency_drawn {G} `{Interp G} (e : Emit) : Prop :=
  match e_op e with
  | Observe v =>
      exists mu sigma (g : G) depth,
        0 <= depth /\ v = pressure (fst (lognormvariate mu sigma g)) depth
  | _ => True
  end.

(** The CPU gauge of an LPAR is among the calls. *)
Definition cpu_reported (cfg : config) (lpar : string) (evs : list Emit) : Prop :=
  exists v, In (mkEmit CPU [lpar; SYSPLEX cfg] (GaugeSet v)) evs.

(** The calls made between the worlds [w] and [w'] are well formed, and
    the CPU gauge of every LPAR of [lpars] is among them. *)
Definition calls_ok {G} `{Interp G} (cfg : config) (lpars : list string)
    (w w' : World G) : Prop :=
  exists evs,
    w_sink w' = w_sink w ++ evs /\
    Forall share_ok evs /\
    Forall latency_drawn evs /\
    forall lpar, In lpar lpars -> cpu_reported cfg lpar evs.

(** What ticks over [lpars] do to the state [state] and the world [w]. *)
Definition ticked {G} `{Interp G} (cfg : config) (lpars : list string)
    (state : gmap string LparState) (w : World G)
    (state' : gmap string LparState) (w' : World G) : Prop :=
  same_fixed state state' /\
  (every in_bounds state -> every in_bounds state') /\
  calls_ok cfg lpars w w'.

(** The LPARs whose tick has run once [n] iterations were asked for. *)
Definition ticked_lpars (cfg : config) (n : nat) : list string :=
  match n with
  | O => []
  | S _ => LPARS cfg
  end.

(** ** Further vocabulary *)

(** [",".join(pieces)] *)
Fixpoint join_comma (pieces : list string) : string :=
  match pieces with
  | [] => EmptyString
  | [piece] => piece
  | piece :: rest => String.append piece (String (Ascii.ascii_of_nat 44) (join_comma rest))
  end.

Fixpoint has_comma (s : string) : bool :=
  match s with
  | EmptyString => false
  | String c rest => Ascii.eqb c (Ascii.ascii_of_nat 44) || has_comma rest
  end.

(** A string that starts with no whitespace character. *)
Definition headed (s : string) : Prop := space_len s = 0%nat.

(** A whitespace character: at the head of any string it is as long as the
    string's [space_len], [lstrip] drops it, and [rstrip] keeps it when it
    keeps something after it. *)
Definition ws_char (pre : string) : Prop :=
  pre <> EmptyString /\
  forall x,
    space_len (cat pre x) = String.length pre /\
    lstrip (cat pre x) = lstrip x /\
    rstrip (cat pre x) = keep pre (rstrip x).

(** A token: not empty, no space around it, no comma in it. *)
Definition good_token (s : string) : Prop :=
  truthy s = true /\ strip s = s /\ has_comma s = false.

(** [adds P m]: from any world and in either outcome, [m] leaves the calls
    already made in place and adds to them a list of calls that satisfies
    [P]. *)
Definition adds {G A} (P : list Emit -> Prop) (m : Py G A) : Prop :=
  forall w, exists evs, w_sink (snd (m w)) = w_sink w ++ evs /\ P evs.

(** Each metric is used with its own operation and labels: the LPAR and the
    sysplex, then the address space or the service where the metric has
    one. *)
Definition well_formed_call (cfg : config) (e : Emit) : Prop :=
  exists lpar,
    In lpar (LPARS cfg) /\
    match e_metric e with
    | AS_CPU | AS_RSS =>
        (exists addr, In addr ADDRESS_SPACES /\ e_labels e = [lpar; SYSPLEX cfg; addr]) /\
        (exists v, e_op e = GaugeSet v)
    | TXN_LAT =>
        (exists service, In service SERVICES /\ e_labels e = [lpar; SYSPLEX cfg; service]) /\
        (exists v, e_op e = Observe v)
    | TXN_TOTAL =>
        (exists service, In service SERVICES /\ e_labels e = [lpar; SYSPLEX cfg; service]) /\
        e_op e = Inc
    | _ =>
        e_labels e = [lpar; SYSPLEX cfg] /\ (exists v, e_op e = GaugeSet v)
    end.

(** The value set on the gauge of a bounded percentage, rate or depth lies
    in the interval of that scalar. *)
Definition gauge_in_range (e : Emit) : Prop :=
  match e_metric e, e_op e with
  | CPU, GaugeSet v => 0 <= v /\ v <= 100
  | ZIIP, GaugeSet v => 0 <= v /\ v <= 100
  | IOPS, GaugeSet v => 0 <= v /\ v <= 8000
  | JOBQ, GaugeSet v => 0 <= v /\ v <= 200
  | CFQ, GaugeSet v => 0 <= v /\ v <= 80
  | AS_CPU, GaugeSet v => 0 <= v /\ v <= 100
  | _, _ => True
  end.

(** The observations and the increments made under the labels [l]. *)
Definition observed (l : list string) (evs : list Emit) : nat :=
  length (List.filter (fun e => is_observe e && bool_decide (e_labels e = l)) evs).
Definition counted (l : list string) (evs : list Emit) : nat :=
  length (List.filter (fun e => is_inc e && bool_decide (e_labels e = l)) evs).

(** Under every label, as many observations as increments. *)
Definition balanced (evs : list Emit) : Prop :=
  forall l, observed l evs = counted l evs.

Definition is_mem_total (e : Emit) : bool :=
  match e_metric e with MEM_TOTAL => true | _ => false end.

(** A call that sets the uptime gauge sets it to [v]. *)
Definition uptime_is (v : Q) (e : Emit) : Prop :=
  match e_metric e with
  | UPTIME => e_op e = GaugeSet v
  | _ => True
  end.

(** An address-space RSS gauge is set between 0.06 and 0.16 of [used]. *)
Definition rss_share_of (used : Q) (e : Emit) : Prop :=
  match e_metric e, e_op e with
  | AS_RSS, GaugeSet v => used * 0.06 <= v /\ v <= used * 0.16
  | _, _ => True
  end.

(** The scalars of [s'] are within one step of those of [s]. *)
Definition one_step (s s' : LparState) : Prop :=
  (cpu s - 7.95 <= cpu s' /\ cpu s' <= cpu s + 7.95) /\
  (ziip s - 8.25 <= ziip s' /\ ziip s' <= ziip s + 8.25) /\
  (iops s - 250 <= iops s' /\ iops s' <= iops s + 250) /\
  (jobq s - 3 <= jobq s' /\ jobq s' <= jobq s + 3) /\
  (cfq s - 3.4 <= cfq s' /\ cfq s' <= cfq s + 3.4) /\
  (mem_used s - 0.7 * inject_Z (1024 ^ 3) <= mem_used s' /\
   mem_used s' <= mem_used s + 0.9 * inject_Z (1024 ^ 3)).

(** The five scalars with fixed intervals are within them. *)
Definition walk_bounds (s : LparState) : Prop :=
  (0 <= cpu s /\ cpu s <= 100) /\
  (0 <= ziip s /\ ziip s <= 100) /\
  (0 <= iops s /\ iops s <= 8000) /\
  (0 <= jobq s /\ jobq s <= 200) /\
  (0 <= cfq s /\ cfq s <= 80).

(** The eight calls of [publish]. *)
Definition gauges (cfg : config) (lpar : string) (s : LparState) (mips uptime : Q)
  : list Emit :=
  [mkEmit CPU [lpar; SYSPLEX cfg] (GaugeSet (cpu s));
   mkEmit ZIIP [lpar; SYSPLEX cfg] (GaugeSet (ziip s));
   mkEmit MIPS [lpar; SYSPLEX cfg] (GaugeSet mips);
   mkEmit IOPS [lpar; SYSPLEX cfg] (GaugeSet (iops s));
   mkEmit MEM_USED [lpar; SYSPLEX cfg] (GaugeSet (mem_used s));
   mkEmit JOBQ [lpar; SYSPLEX cfg] (GaugeSet (jobq s));
   mkEmit CFQ [lpar; SYSPLEX cfg] (GaugeSet (cfq s));
   mkEmit UPTIME [lpar; SYSPLEX cfg] (GaugeSet uptime)].

(** The gauge of a static total is set to the bytes of a memory tier. *)
Definition total_is_a_tier (e : Emit) : Prop :=
  exists gib, In gib MEMORY_TIERS /\ e_op e = GaugeSet (inject_Z (gib * 1024 ^ 3)).

(** The record whose fields are the eight draws of [init_state] from the
    generator state [g], in the order the code makes them. *)
Definition drawn_from {G} `{Interp G} (g : G) (s : LparState) : Prop :=
  let g1 := snd (choice 32%Z [48; 64; 96; 128]%Z g) in
  let g2 := snd (uniform 0.45 0.75 g1) in
  let g3 := snd (uniform 10 70 g2) in
  let g4 := snd (uniform 5 60 g3) in
  let g5 := snd (choice 8000%Z [10000; 12000; 16000]%Z g4) in
  let g6 := snd (uniform 500 3500 g5) in
  let g7 := snd (uniform 0 40 g6) in
  mem_total s = (fst (choice 32%Z [48; 64; 96; 128]%Z g) * 1024 ^ 3)%Z /\
  mem_used s = inject_Z (mem_total s) * fst (uniform 0.45 0.75 g1) /\
  cpu s = fst (uniform 10 70 g2) /\
  ziip s = fst (uniform 5 60 g3) /\
  mips_cap s = fst (choice 8000%Z [10000; 12000; 16000]%Z g4) /\
  iops s = fst (uniform 500 3500 g5) /\
  jobq s = fst (uniform 0 40 g6) /\
  cfq s = fst (uniform 1 20 g7).

(** The generator state after these eight draws. *)
Definition after_draws {G} `{Interp G} (g : G) : G :=
  let g1 := snd (choice 32%Z [48; 64; 96; 128]%Z g) in
  let g2 := snd (uniform 0.45 0.75 g1) in
  let g3 := snd (uniform 10 70 g2) in
  let g4 := snd (uniform 5 60 g3) in
  let g5 := snd (choice 8000%Z [10000; 12000; 16000]%Z g4) in
  let g6 := snd (uniform 500 3500 g5) in
  let g7 := snd (uniform 0 40 g6) in
  snd (uniform 1 20 g7).

(** The generator state after the draws of [k] records. *)
Fixpoint skip_lpars {G} `{Interp G} (k : nat) (g : G) : G :=
  match k with
  | O => g
  | S k' => skip_lpars k' (after_draws g)
  end.

(** The depth the JOBQ gauge was last set to under each tuple of labels,
    after one more call. *)
Definition track (cur : list string -> option Q) (e : Emit) : list string -> option Q :=
  match e_metric e, e_op e with
  | JOBQ, GaugeSet d =>
      fun labels => if bool_decide (labels = e_labels e) then Some d else cur labels
  | _, _ => cur
  end.

(** What a call has to be, given the depths set so far: the JOBQ gauge is
    set to a depth in [0, 200]; a latency observed under (lpar, sysplex,
    service) is a strictly positive log-normal draw of the parameters of the
    service, times 1 + d / 400 for the depth d the JOBQ gauge was last set
    to under (lpar, sysplex). *)
Definition sampled_at {G} `{Interp G} (cur : list string -> option Q) (e : Emit) : Prop :=
  match e_op e with
  | Observe v =>
      exists lpar sysplex service (g : G) d,
        e_labels e = [lpar; sysplex; service] /\
        cur [lpar; sysplex] = Some d /\
        0 < fst (lognormvariate (fst (latency_profile service))
                                (snd (latency_profile service)) g) /\
        v = pressure (fst (lognormvariate (fst (latency_profile service))
                                          (snd (latency_profile service)) g)) d
  | GaugeSet d =>
      match e_metric e with
      | JOBQ => 0 <= d /\ d <= 200
      | _ => True
      end
  | Inc => True
  end.

(** Every call of a sequence is what it has to be, given the depths set
    before it. *)
Fixpoint depth_ok {G} `{Interp G} (cur : list string -> option Q) (evs : list Emit) : Prop :=
  match evs with
  | [] => True
  | e :: rest => sampled_at cur e /\ depth_ok (track cur e) rest
  end.

(** Calls that are in order whatever was set before them. *)
Definition tracked {G} `{Interp G} (evs : list Emit) : Prop :=
  forall cur, depth_ok cur evs.

(** Calls that are in order once the depth [d] is set under [labels], and
    leave it set. *)
Definition at_depth {G} `{Interp G} (labels : list string) (d : Q) (evs : list Emit) : Prop :=
  forall cur, cur labels = Some d ->
    depth_ok cur evs /\ fold_left track evs cur labels = Some d.

(** A latency observation lies between a strictly positive draw and one and
    a half times that draw. *)
Definition latency_within (e : Emit) : Prop :=
  match e_op e with
  | Observe v => exists lat, 0 < lat /\ lat <= v /\ v <= 1.5 * lat
  | _ => True
  end.

(** The latencies observed, in order. *)
Definition latencies (evs : list Emit) : list Q :=
  flat_map (fun e => match e_op e with Observe v => [v] | _ => [] end) evs.

(** A latency observed for [lpar] at the depth [d]: a strictly positive
    log-normal draw of the parameters of its service, times 1 + d / 400. *)
Definition pressed_by {G} `{Interp G} (cfg : config) (lpar : string) (d : Q) (e : Emit) : Prop :=
  match e_op e with
  | Observe v =>
      exists service (g : G),
        In service SERVICES /\
        e_labels e = [lpar; SYSPLEX cfg; service] /\
        0 < fst (lognormvariate (fst (latency_profile service))
                                (snd (latency_profile service)) g) /\
        v = pressure (fst (lognormvariate (fst (latency_profile service))
                                          (snd (latency_profile service)) g)) d
  | _ => True
  end.

(** * Properties *)

(** ** The numeric primitives *)

Lemma Qltb_true (a b : Q) : Qltb a b = true <-> a < b.
Proof.
  unfold Qltb. rewrite negb_true_iff.
  split; intro Hlt.
  - apply Qnot_le_lt. intro Hle. apply Qle_bool_iff in Hle. congruence.
  - destruct (Qle_bool b a) eqn:E; [|reflexivity].
    apply Qle_bool_iff in E. apply Qle_not_lt in E. contradiction.
Qed.

Lemma Qltb_false (a b : Q) : Qltb a b = false <-> b <= a.
Proof.
  unfold Qltb. rewrite negb_false_iff. apply Qle_bool_iff.
Qed.

Lemma py_max_cases (a b : Q) :
  (a < b /\ py_max a b = b) \/ (b <= a /\ py_max a b = a).
Proof.
  unfold py_max. destruct (Qltb a b) eqn:E.
  - left. split; [apply Qltb_true; exact E | reflexivity].
  - right. split; [apply Qltb_false; exact E | reflexivity].
Qed.

Lemma py_min_cases (a b : Q) :
  (b < a /\ py_min a b = b) \/ (a <= b /\ py_min a b = a).
Proof.
  unfold py_min. destruct (Qltb b a) eqn:E.
  - left. split; [apply Qltb_true; exact E | reflexivity].
  - right. split; [apply Qltb_false; exact E | reflexivity].
Qed.

Lemma clamp_bounds (value lo hi : Q) :
  lo <= hi -> lo <= clamp value lo hi /\ clamp value lo hi <= hi.
Proof.
  intro Hb. unfold clamp.
  destruct (py_min_cases hi value) as [[H1 E1] | [H1 E1]]; rewrite E1.
  - destruct (py_max_cases lo value) as [[H2 E2] | [H2 E2]]; rewrite E2; split; lra.
  - destruct (py_max_cases lo hi) as [[H2 E2] | [H2 E2]]; rewrite E2; split; lra.
Qed.

Lemma clamp_collapsed (value lo hi : Q) :
  hi < lo -> clamp value lo hi = lo.
Proof.
  intro Hb. unfold clamp.
  destruct (py_min_cases hi value) as [[H1 E1] | [H1 E1]]; rewrite E1.
  - destruct (py_max_cases lo value) as [[H2 E2] | [H2 E2]]; [lra | exact E2].
  - destruct (py_max_cases lo hi) as [[H2 E2] | [H2 E2]]; [lra | exact E2].
Qed.

Lemma py_or_nonzero (x : Q) : ~ py_or x 1 == 0.
Proof.
  unfold py_or. destruct (Qeq_bool x 0) eqn:E.
  - intro Hz. lra.
  - apply Qeq_bool_neq. exact E.
Qed.



(** ** The rules of [post] *)

Section Rules.

Context {G : Type}.

Lemma post_ret {A} (a : A) (w : World G) Q E : Q a w -> post (ret a) w Q E.
Proof. intro HQ. exact HQ. Qed.

Lemma post_raise {A} (e : PyError) (w : World G) (Q : A -> World G -> Prop) E :
  E e w -> post (raise e) w Q E.
Proof. intro HE. exact HE. Qed.

Lemma post_bind {A B} (m : Py G A) (k : A -> Py G B) (w : World G) Q E :
  post m w (fun a w1 => post (k a) w1 Q E) E -> post (bind m k) w Q E.
Proof.
  unfold post, bind. destruct (m w) as [[a|e] w1]; intro Hm; exact Hm.
Qed.

Lemma post_draw {A} (f : G -> A * G) (w : World G) Q E :
  Q (fst (f (w_rng w))) (mkWorld (snd (f (w_rng w))) (w_clock w) (w_sink w)) ->
  post (draw f) w Q E.
Proof.
  unfold post, draw. destruct (f (w_rng w)) as [a g']. intro HQ. exact HQ.
Qed.

Lemma post_now (w : World G) Q E :
  Q (w_clock w O) (mkWorld (w_rng w) (fun n => w_clock w (S n)) (w_sink w)) ->
  post now w Q E.
Proof. intro HQ. exact HQ. Qed.

Lemma post_emit (e : Emit) (w : World G) Q E :
  Q tt (mkWorld (w_rng w) (w_clock w) (w_sink w ++ [e])) -> post (emit e) w Q E.
Proof. intro HQ. exact HQ. Qed.

Lemma post_conseq {A} (m : Py G A) (w : World G) (Q Q' : A -> World G -> Prop) E E' :
  post m w Q E ->
  (forall a w', Q a w' -> Q' a w') ->
  (forall e w', E e w' -> E' e w') ->
  post m w Q' E'.
Proof.
  unfold post. destruct (m w) as [[a|e] w1]; intros Hm HQ HE; auto.
Qed.

(** What a program that returns gives can be named. *)
Lemma returns_inv {A} (m : Py G A) (w : World G) Q :
  returns m w Q -> exists a w', m w = (Ok a, w') /\ Q a w'.
Proof.
  unfold returns, post, never. destruct (m w) as [[a|e] w1]; intro Hm.
  - exists a, w1. split; [reflexivity | exact Hm].
  - contradiction.
Qed.

(** [for x in xs]: an invariant of the world. *)
Lemma post_for_each {A} (xs : list A) (body : A -> Py G unit)
    (I : World G -> Prop) E :
  (forall x w, In x xs -> I w -> post (body x) w (fun _ w' => I w') E) ->
  forall w, I w -> post (for_each xs body) w (fun _ w' => I w') E.
Proof.
  induction xs as [|x rest IH]; intros Hbody w Hw; simpl.
  - apply post_ret. exact Hw.
  - apply post_bind.
    eapply post_conseq; [apply (Hbody x w); [left; reflexivity | exact Hw] | | auto].
    intros u1 w1 H1. simpl in H1. apply IH; [|exact H1].
    intros y w2 Hy. apply Hbody. right. exact Hy.
Qed.

(** [for _ in range(n)]: an invariant indexed by the iterations done. *)
Lemma post_for_range (n : nat) (body : Py G unit) (I : nat -> World G -> Prop) E :
  (forall k w, (k < n)%nat -> I k w -> post body w (fun _ w' => I (S k) w') E) ->
  forall w, I O w -> post (for_range n body) w (fun _ w' => I n w') E.
Proof.
  revert I. induction n as [|n IH]; intros I Hbody w Hw; simpl.
  - apply post_ret. exact Hw.
  - apply post_bind.
    eapply post_conseq; [apply (Hbody O w); [lia | exact Hw] | | auto].
    intros u1 w1 H1. simpl in H1.
    apply (IH (fun k => I (S k))); [|exact H1].
    intros k w2 Hk. apply Hbody. lia.
Qed.

(** A loop that threads a value: an invariant of the value and the world. *)
Lemma post_fold_each {A S} (xs : list A) (body : A -> S -> Py G S)
    (I : S -> World G -> Prop) E :
  (forall x acc w, In x xs -> I acc w -> post (body x acc) w I E) ->
  forall acc w, I acc w -> post (fold_each xs body acc) w I E.
Proof.
  induction xs as [|x rest IH]; intros Hbody acc w Hw; simpl.
  - apply post_ret. exact Hw.
  - apply post_bind.
    eapply post_conseq; [apply (Hbody x acc w); [left; reflexivity | exact Hw] | | auto].
    intros acc1 w1 H1. apply IH; [|exact H1].
    intros y acc2 w2 Hy. apply Hbody. right. exact Hy.
Qed.

End Rules.

(** One step of a program: its first instruction and the rest. *)
Ltac py_step :=
  first
    [ apply post_bind
    | apply post_draw
    | apply post_emit
    | apply post_now
    | apply post_ret ].

(** ** The pieces of a tick *)

Section Pieces.

Context {G : Type} {I : Interp G}.

Lemma getitem_post (state : gmap string LparState) (lpar : string) (s : LparState)
    (w : World G) Q E :
  state !! lpar = Some s -> Q s w -> post (getitem state lpar) w Q E.
Proof.
  intros Hs HQ. unfold getitem. rewrite Hs. apply post_ret. exact HQ.
Qed.

Lemma py_div_post (x y : Q) (w : World G) Q E :
  ~ y == 0 -> Q (x / y) w -> post (py_div x y) w Q E.
Proof.
  intros Hy HQ. unfold py_div.
  destruct (Qeq_bool y 0) eqn:Ey.
  - apply Qeq_bool_iff in Ey. contradiction.
  - apply post_ret. exact HQ.
Qed.

(** The walk keeps the fixed parameters, leaves the registry alone, and puts
    every scalar in its interval: unconditionally for the five fixed
    intervals, and for the memory when its interval is not empty. *)
Lemma walk_post (s : LparState) (w : World G) :
  returns (walk s) w
    (fun sm w' =>
       mem_total (fst sm) = mem_total s /\
       mips_cap (fst sm) = mips_cap s /\
       (0 <= inject_Z (mem_total s) -> in_bounds (fst sm)) /\
       (0 <= jobq (fst sm)) /\
       w_sink w' = w_sink w).
Proof.
  unfold returns, walk. repeat py_step.
  unfold set_mem_used, set_cfq, set_jobq, set_iops, set_ziip, set_cpu. simpl.
  split; [reflexivity|]. split; [reflexivity|]. split.
  - intro Hm. unfold in_bounds. simpl.
    repeat split; apply clamp_bounds; lra.
  - split; [apply clamp_bounds; lra | reflexivity].
Qed.

Lemma publish_post (cfg : config) (lpar : string) (s : LparState) (mips uptime : Q)
    (w : World G) :
  returns (publish cfg lpar s mips uptime) w
    (fun _ w' =>
       w_rng w' = w_rng w /\
       w_sink w' =
         w_sink w ++
           [mkEmit CPU [lpar; SYSPLEX cfg] (GaugeSet (cpu s));
            mkEmit ZIIP [lpar; SYSPLEX cfg] (GaugeSet (ziip s));
            mkEmit MIPS [lpar; SYSPLEX cfg] (GaugeSet mips);
            mkEmit IOPS [lpar; SYSPLEX cfg] (GaugeSet (iops s));
            mkEmit MEM_USED [lpar; SYSPLEX cfg] (GaugeSet (mem_used s));
            mkEmit JOBQ [lpar; SYSPLEX cfg] (GaugeSet (jobq s));
            mkEmit CFQ [lpar; SYSPLEX cfg] (GaugeSet (cfq s));
            mkEmit UPTIME [lpar; SYSPLEX cfg] (GaugeSet uptime)]).
Proof.
  unfold returns, publish, gauge_set. repeat py_step. simpl.
  split; [reflexivity|].
  repeat rewrite <- app_assoc. reflexivity.
Qed.

End Pieces.

(** ** Loops that only add to the registry *)

Section Emitting.

Context {G : Type}.

Lemma emits_conseq {A} (m : Py G A) (w : World G) (P P' : A -> list Emit -> Prop) :
  emits m w P -> (forall a evs, P a evs -> P' a evs) -> emits m w P'.
Proof.
  intros Hm HP. unfold emits, returns in *.
  eapply post_conseq; [exact Hm | | auto].
  intros a w' (evs & Hs & Hp). exists evs. auto.
Qed.

(** The calls of a loop are those of its iterations, one after the other. *)
Lemma for_each_emits {A} (xs : list A) (body : A -> Py G unit)
    (P : A -> list Emit -> Prop) :
  (forall x w, In x xs -> emits (body x) w (fun _ evs => P x evs)) ->
  forall w, emits (for_each xs body) w
              (fun _ evs => exists evss, evs = concat evss /\ Forall2 P xs evss).
Proof.
  induction xs as [|x rest IH]; intros Hbody w; unfold emits, returns; simpl.
  - apply post_ret. exists []. split; [rewrite app_nil_r; reflexivity|].
    exists []. split; [reflexivity | constructor].
  - apply post_bind.
    eapply post_conseq; [apply (Hbody x w); left; reflexivity | | auto].
    intros u1 w1 (evs1 & Hs1 & Hp1).
    eapply post_conseq; [apply IH; intros y w2 Hy; apply Hbody; right; exact Hy | | auto].
    intros u2 w2 (evs2 & Hs2 & evss & Hc & Hf).
    exists (evs1 ++ evs2). split.
    + rewrite Hs2, Hs1, app_assoc. reflexivity.
    + exists (evs1 :: evss). split; [simpl; rewrite Hc; reflexivity|].
      constructor; assumption.
Qed.

Lemma for_range_emits (n : nat) (body : Py G unit) (P : list Emit -> Prop) :
  (forall w, emits body w (fun _ evs => P evs)) ->
  forall w, emits (for_range n body) w
              (fun _ evs => exists evss,
                   evs = concat evss /\ length evss = n /\ Forall P evss).
Proof.
  intro Hbody. induction n as [|n IH]; intro w; unfold emits, returns; simpl.
  - apply post_ret. exists []. split; [rewrite app_nil_r; reflexivity|].
    exists []. split; [reflexivity|]. split; [reflexivity | constructor].
  - apply post_bind.
    eapply post_conseq; [apply (Hbody w) | | auto].
    intros u1 w1 (evs1 & Hs1 & Hp1).
    eapply post_conseq; [apply IH | | auto].
    intros u2 w2 (evs2 & Hs2 & evss & Hc & Hl & Hf).
    exists (evs1 ++ evs2). split.
    + rewrite Hs2, Hs1, app_assoc. reflexivity.
    + exists (evs1 :: evss). split; [simpl; rewrite Hc; reflexivity|].
      split; [simpl; rewrite Hl; reflexivity|].
      constructor; assumption.
Qed.

End Emitting.

(** ** Counting and checking the calls of a loop *)

Lemma Forall_concat_of {A} (P : A -> Prop) (xss : list (list A)) :
  Forall (Forall P) xss -> Forall P (concat xss).
Proof.
  induction 1 as [|xs rest Hxs Hrest IH]; simpl.
  - constructor.
  - apply Forall_app. split; assumption.
Qed.

Lemma Forall2_right {A B} (P : A -> B -> Prop) (Q : B -> Prop) (xs : list A) (ys : list B) :
  Forall2 P xs ys -> (forall x y, In x xs -> P x y -> Q y) -> Forall Q ys.
Proof.
  induction 1 as [|x y xs ys Hxy Hrest IH]; intro HPQ.
  - constructor.
  - constructor.
    + apply (HPQ x y); [left; reflexivity | exact Hxy].
    + apply IH. intros x' y' Hin. apply HPQ. right. exact Hin.
Qed.

Lemma filter_concat_length {A} (f : A -> bool) (c : nat) (xss : list (list A)) :
  Forall (fun xs => length (List.filter f xs) = c) xss ->
  length (List.filter f (concat xss)) = (length xss * c)%nat.
Proof.
  induction 1 as [|xs rest Hxs Hrest IH]; simpl.
  - reflexivity.
  - rewrite List.filter_app, length_app, Hxs, IH. reflexivity.
Qed.

(** ** The address-space loop and the transaction sampler *)

Section Derived.

Context {G : Type} {I : Interp G}.

Lemma zip_length {A B} (xs : list A) (ys : list B) :
  length ys = length xs -> length (zip xs ys) = length xs.
Proof.
  revert ys. induction xs as [|x xs IH]; intros [|y ys] Hl; simpl in *;
    try reflexivity; try discriminate.
  f_equal. apply IH. lia.
Qed.

Lemma draw_weights_post {A} (xs : list A) (w : World G) :
  returns (draw_weights xs) w
    (fun ws w' => length ws = length xs /\ w_sink w' = w_sink w).
Proof.
  revert w. induction xs as [|x rest IH]; intro w; unfold returns; simpl.
  - apply post_ret. split; reflexivity.
  - apply post_bind. apply post_draw. apply post_bind.
    eapply post_conseq; [apply IH | | auto].
    intros ws w1 [Hl Hs]. apply post_ret. simpl.
    split; [rewrite Hl; reflexivity | exact Hs].
Qed.

(** One address space: the share is clamped, the divisor is not zero. *)
Lemma address_space_emits (cfg : config) (lpar : string) (s : LparState) (wsum : Q)
    (aw : string * Q) (w : World G) :
  ~ wsum == 0 ->
  emits (address_space cfg lpar s wsum aw) w
    (fun _ evs =>
       Forall share_ok evs /\
       Forall (fun e => is_observe e = false) evs /\
       length (List.filter is_as_cpu evs) = 1%nat).
Proof.
  intro Hw. unfold emits, returns, address_space, gauge_set.
  apply post_bind. apply py_div_post; [exact Hw|].
  repeat py_step. simpl.
  eexists. split; [rewrite <- app_assoc; simpl; reflexivity|].
  split; [|split; [repeat constructor | reflexivity]].
  constructor; [|constructor; [exact Logic.I | constructor]].
  unfold share_ok. simpl. apply clamp_bounds. lra.
Qed.

Lemma address_spaces_emits (cfg : config) (lpar : string) (s : LparState) (w : World G) :
  emits (address_spaces cfg lpar s) w
    (fun _ evs =>
       Forall share_ok evs /\
       Forall (fun e => is_observe e = false) evs /\
       length (List.filter is_as_cpu evs) = length ADDRESS_SPACES).
Proof.
  unfold emits, returns, address_spaces.
  apply post_bind.
  eapply post_conseq; [apply draw_weights_post | | auto].
  intros ws w1 [Hl Hs]. simpl in Hl, Hs.
  eapply post_conseq;
    [ apply (for_each_emits (zip ADDRESS_SPACES ws)
               (address_space cfg lpar s (py_or (py_sum ws) 1))
               (fun _ evs => Forall share_ok evs /\
                             Forall (fun e => is_observe e = false) evs /\
                             length (List.filter is_as_cpu evs) = 1%nat))
    | | auto ].
  - intros aw w2 _. apply address_space_emits. apply py_or_nonzero.
  - intros u w2 (evs & Hs2 & evss & Hc & Hf). simpl in Hs2.
    exists evs. split; [rewrite Hs2, Hs; reflexivity|].
    subst evs. split; [|split].
    + apply Forall_concat_of.
      apply (Forall2_right _ _ _ _ Hf). intros x y _ (Hy & _ & _). exact Hy.
    + apply Forall_concat_of.
      apply (Forall2_right _ _ _ _ Hf). intros x y _ (_ & Hy & _). exact Hy.
    + rewrite (filter_concat_length is_as_cpu 1).
      * rewrite <- (Forall2_length _ _ _ Hf), zip_length by exact Hl. lia.
      * apply (Forall2_right _ _ _ _ Hf). intros x y _ (_ & _ & Hy). exact Hy.
Qed.

Lemma transaction_emits (cfg : config) (lpar : string) (s : LparState)
    (service : string) (w : World G) :
  emits (transaction cfg lpar s service) w
    (fun _ evs => evs = transaction_calls cfg lpar s service (w_rng w)).
Proof.
  unfold emits, returns, transaction. repeat py_step. simpl.
  eexists. split; [rewrite <- app_assoc; simpl; reflexivity | reflexivity].
Qed.

(** The sampler of one service makes [count] transactions. *)
Lemma sample_service_emits (cfg : config) (lpar : string) (s : LparState)
    (service : string) (w : World G) :
  emits (sample_service cfg lpar s service) w
    (fun _ evs => exists evss,
         evs = concat evss /\
         length evss =
           Z.to_nat (txn_count (txn_tps service (cpu s) (fst (uniform 0.8 1.3 (w_rng w))))
                               (INTERVAL cfg)) /\
         Forall (fun evs1 => exists g, evs1 = transaction_calls cfg lpar s service g) evss).
Proof.
  unfold emits, returns, sample_service.
  apply post_bind. apply post_draw.
  eapply post_conseq;
    [ apply (for_range_emits _ (transaction cfg lpar s service)
               (fun evs1 => exists g, evs1 = transaction_calls cfg lpar s service g))
    | | auto ].
  - intro w1. eapply emits_conseq; [apply transaction_emits|].
    intros _ evs ->. eexists. reflexivity.
  - intros u w1 (evs & Hs & evss & Hc & Hl & Hf). simpl in Hs.
    exists evs. split; [exact Hs|]. exists evss. auto.
Qed.


End Derived.

(** ** The transaction count *)



(** Rounding moves the count: at CICS, cpu 36, the draw 0.8 and an interval
    of five seconds the exact product is 136, the float product is
    135.99999999999997, and the count is 135. *)
Lemma txn_count_is_rounded :
  txn_count (txn_tps "CICS" 36 (fl 0.8)) 5 = 135%Z /\
  250 * (0.5 + 36 / 200) * 0.8 * 5 / 5 == 136.
Proof. split; vm_compute; reflexivity. Qed.

(** ** The fixed parameters *)

Lemma same_fixed_refl (state : gmap string LparState) : same_fixed state state.
Proof.
  intro lpar. destruct (state !! lpar); [split; reflexivity | exact Logic.I].
Qed.

Lemma same_fixed_trans (st1 st2 st3 : gmap string LparState) :
  same_fixed st1 st2 -> same_fixed st2 st3 -> same_fixed st1 st3.
Proof.
  intros H12 H23 lpar. specialize (H12 lpar). specialize (H23 lpar).
  destruct (st1 !! lpar), (st2 !! lpar), (st3 !! lpar); try contradiction; try exact Logic.I.
  destruct H12 as [Ha Hb], H23 as [Hc Hd]. split; congruence.
Qed.

Lemma same_fixed_insert (state : gmap string LparState) (lpar : string)
    (s s' : LparState) :
  state !! lpar = Some s ->
  mem_total s' = mem_total s -> mips_cap s' = mips_cap s ->
  same_fixed state (<[lpar := s']> state).
Proof.
  intros Hs Hm Hc l. destruct (decide (lpar = l)) as [<-|Hne].
  - rewrite Hs, lookup_insert_eq. split; assumption.
  - rewrite lookup_insert_ne by exact Hne.
    destruct (state !! l); [split; reflexivity | exact Logic.I].
Qed.

Lemma same_fixed_covers (cfg : config) (st1 st2 : gmap string LparState) :
  same_fixed st1 st2 -> covers cfg st1 -> covers cfg st2.
Proof.
  intros Hf Hc lpar Hin. destruct (Hc lpar Hin) as [s Hs].
  specialize (Hf lpar). rewrite Hs in Hf.
  destruct (st2 !! lpar) as [s2|]; [exists s2; reflexivity | contradiction].
Qed.

Lemma every_insert (P : LparState -> Prop) (state : gmap string LparState)
    (lpar : string) (s : LparState) :
  every P state -> P s -> every P (<[lpar := s]> state).
Proof.
  intros Ha Hs l x. destruct (decide (lpar = l)) as [<-|Hne].
  - rewrite lookup_insert_eq. intros [= <-]. exact Hs.
  - rewrite lookup_insert_ne by exact Hne. apply Ha.
Qed.

Lemma in_bounds_total_nonneg (s : LparState) :
  in_bounds s -> 0 <= inject_Z (mem_total s).
Proof.
  intros (_ & _ & _ & _ & _ & Hlo & Hhi). lra.
Qed.

(** ** One tick *)

Section Tick.

Context {G : Type} {I : Interp G}.

Lemma transaction_calls_ok (cfg : config) (lpar : string) (s : LparState)
    (service : string) (g : G) :
  0 <= jobq s ->
  Forall share_ok (transaction_calls cfg lpar s service g) /\
  Forall latency_drawn (transaction_calls cfg lpar s service g).
Proof.
  intro Hj. unfold transaction_calls. split.
  - repeat constructor.
  - constructor; [|repeat constructor].
    unfold latency_drawn. simpl.
    eexists _, _, g, (jobq s). split; [exact Hj | reflexivity].
Qed.

Lemma services_emit (cfg : config) (lpar : string) (s : LparState) (w : World G) :
  0 <= jobq s ->
  emits (for_each SERVICES (sample_service cfg lpar s)) w
    (fun _ evs => Forall share_ok evs /\ Forall latency_drawn evs).
Proof.
  intro Hj.
  eapply emits_conseq.
  - apply (for_each_emits SERVICES (sample_service cfg lpar s)
             (fun _ evs => Forall share_ok evs /\ Forall latency_drawn evs)).
    intros service w1 _.
    eapply emits_conseq; [apply sample_service_emits|].
    intros _ evs (evss & -> & _ & Hf). split; apply Forall_concat_of.
    + eapply Forall_impl; [exact Hf|]. intros evs1 [g ->].
      apply transaction_calls_ok. exact Hj.
    + eapply Forall_impl; [exact Hf|]. intros evs1 [g ->].
      apply transaction_calls_ok. exact Hj.
  - intros _ evs (evss & -> & Hf). split; apply Forall_concat_of.
    + apply (Forall2_right _ _ _ _ Hf). intros x y _ [Hy _]. exact Hy.
    + apply (Forall2_right _ _ _ _ Hf). intros x y _ [_ Hy]. exact Hy.
Qed.

(** The body of the loop over the LPARs: the record of [lpar] is replaced
    by one with the same fixed parameters and every scalar in its interval,
    and the calls made are well formed. *)
Lemma tick_lpar_post (cfg : config) (uptime : Q) (lpar : string)
    (state : gmap string LparState) (s : LparState) (w : World G) :
  state !! lpar = Some s ->
  returns (tick_lpar cfg uptime lpar state) w
    (fun state' w' => exists s' evs,
         state' = <[lpar := s']> state /\
         mem_total s' = mem_total s /\
         mips_cap s' = mips_cap s /\
         (0 <= inject_Z (mem_total s) -> in_bounds s') /\
         w_sink w' = w_sink w ++ evs /\
         Forall share_ok evs /\
         Forall latency_drawn evs /\
         cpu_reported cfg lpar evs).
Proof.
  intro Hs. unfold returns, tick_lpar.
  apply post_bind. apply (getitem_post state lpar s); [exact Hs|].
  apply post_bind.
  eapply post_conseq; [apply walk_post | | auto].
  intros [s' mips] w1 (Hmt & Hmc & Hb & Hj & Hs1). simpl in *.
  apply post_bind.
  eapply post_conseq; [apply publish_post | | auto].
  intros u2 w2 (_ & Hs2). simpl in Hs2.
  apply post_bind.
  eapply post_conseq; [apply address_spaces_emits | | auto].
  intros u3 w3 (evs3 & Hs3 & Hsh3 & Hno3 & _). simpl in Hs3.
  apply post_bind.
  eapply post_conseq; [apply (services_emit cfg lpar s' w3 Hj) | | auto].
  intros u4 w4 (evs4 & Hs4 & Hsh4 & Hl4). simpl in Hs4.
  apply post_ret.
  eexists s', _. split; [reflexivity|].
  split; [exact Hmt|]. split; [exact Hmc|]. split; [exact Hb|].
  split.
  { rewrite Hs4, Hs3, Hs2. repeat rewrite <- app_assoc. rewrite Hs1. reflexivity. }
  split.
  { apply Forall_app. split; [repeat constructor|].
    apply Forall_app. split; assumption. }
  split.
  { apply Forall_app. split; [repeat constructor|].
    apply Forall_app. split; [|exact Hl4].
    eapply Forall_impl; [exact Hno3|].
    intros e He. unfold is_observe in He. unfold latency_drawn.
    destruct (e_op e); [exact Logic.I | discriminate | exact Logic.I]. }
  exists (cpu s'). left. reflexivity.
Qed.

(** The loop over the LPARs of one tick. *)
Lemma tick_lpar_loop (cfg : config) (uptime : Q) (lpars : list string) :
  forall (state : gmap string LparState) (w : World G),
    (forall lpar, In lpar lpars -> exists s, state !! lpar = Some s) ->
    returns (fold_each lpars (tick_lpar cfg uptime) state) w
      (fun state' w' => ticked cfg lpars state w state' w').
Proof.
  induction lpars as [|x rest IH]; intros state w Hcov; unfold returns; simpl.
  - apply post_ret. split; [apply same_fixed_refl|]. split; [auto|].
    exists []. rewrite app_nil_r. repeat split; try constructor.
    intros lpar [].
  - apply post_bind.
    destruct (Hcov x (or_introl eq_refl)) as [s Hs].
    eapply post_conseq; [apply (tick_lpar_post cfg uptime x state s w Hs) | | auto].
    intros st1 w1 (s' & evs1 & -> & Hmt & Hmc & Hb & Hs1 & Hsh1 & Hl1 & Hcpu1).
    assert (Hf1 : same_fixed state (<[x := s']> state))
      by (apply (same_fixed_insert state x s s'); assumption).
    eapply post_conseq; [apply (IH (<[x := s']> state) w1) | | auto].
    + intros lpar Hin. destruct (decide (x = lpar)) as [<-|Hne].
      * exists s'. apply lookup_insert_eq.
      * rewrite lookup_insert_ne by exact Hne. apply Hcov. right. exact Hin.
    + intros st2 w2 (Hf2 & Hb2 & evs2 & Hs2 & Hsh2 & Hl2 & Hcpu2).
      split; [exact (same_fixed_trans _ _ _ Hf1 Hf2)|].
      split.
      { intro Hall. apply Hb2. apply every_insert; [exact Hall|].
        apply Hb. apply in_bounds_total_nonneg. exact (Hall x s Hs). }
      exists (evs1 ++ evs2).
      split; [rewrite Hs2, Hs1, app_assoc; reflexivity|].
      split; [apply Forall_app; split; assumption|].
      split; [apply Forall_app; split; assumption|].
      intros lpar [<-|Hin].
      * destruct Hcpu1 as [v Hv]. exists v. apply in_or_app. left. exact Hv.
      * destruct (Hcpu2 lpar Hin) as [v Hv]. exists v. apply in_or_app. right. exact Hv.
Qed.

Lemma tick_lpars_post (cfg : config) (uptime : Q) (state : gmap string LparState)
    (w : World G) :
  covers cfg state ->
  returns (tick_lpars cfg uptime state) w
    (fun state' w' => ticked cfg (LPARS cfg) state w state' w').
Proof.
  intro Hcov. unfold tick_lpars. apply tick_lpar_loop. exact Hcov.
Qed.

(** One iteration of [while True]: the loop over the LPARs is done in either
    outcome, and the only exception is the [ValueError] of a negative
    sleep. *)
Lemma tick_post (cfg : config) (started : Q) (state : gmap string LparState)
    (w : World G) :
  covers cfg state ->
  post (tick cfg started state) w
    (fun state' w' => 0 <= INTERVAL cfg /\ ticked cfg (LPARS cfg) state w state' w')
    (fun e w' => e = ValueError /\ INTERVAL cfg < 0 /\
                 exists state', ticked cfg (LPARS cfg) state w state' w').
Proof.
  intro Hcov. unfold tick.
  apply post_bind. apply post_now.
  apply post_bind.
  eapply post_conseq; [apply tick_lpars_post; exact Hcov | | intros e w' []].
  intros st1 w1 Ht. unfold ticked in Ht. simpl in Ht.
  unfold sleep. destruct (Qltb (INTERVAL cfg) 0) eqn:Ei.
  - apply post_bind. apply post_raise.
    split; [reflexivity|]. split; [apply Qltb_true; exact Ei|].
    exists st1. exact Ht.
  - apply post_bind. apply post_ret. apply post_ret.
    split; [apply Qltb_false; exact Ei | exact Ht].
Qed.

End Tick.

(** ** The queue pressure *)

Lemma pressure_pos (lat depth : Q) : 0 < lat -> 0 <= depth -> 0 < pressure lat depth.
Proof.
  intros Hl Hd. unfold pressure.
  assert (Hq : 0 <= depth / 400) by (apply Qle_shift_div_l; lra).
  apply Qmult_lt_0_compat; lra.
Qed.

(** ** The run *)

Section Run.

Context {G : Type} {I : Interp G}.

Lemma calls_ok_refl (cfg : config) (w : World G) : calls_ok cfg [] w w.
Proof.
  exists []. rewrite app_nil_r. repeat split; try constructor. intros lpar [].
Qed.

Lemma calls_ok_trans (cfg : config) (l1 l2 : list string) (w w1 w2 : World G) :
  calls_ok cfg l1 w w1 -> calls_ok cfg l2 w1 w2 -> calls_ok cfg l1 w w2.
Proof.
  intros (evs1 & Hs1 & Hsh1 & Hl1 & Hc1) (evs2 & Hs2 & Hsh2 & Hl2 & _).
  exists (evs1 ++ evs2).
  split; [rewrite Hs2, Hs1, app_assoc; reflexivity|].
  split; [apply Forall_app; split; assumption|].
  split; [apply Forall_app; split; assumption|].
  intros lpar Hin. destruct (Hc1 lpar Hin) as [v Hv].
  exists v. apply in_or_app. left. exact Hv.
Qed.

Lemma ticked_trans (cfg : config) (l1 l2 : list string)
    (st st1 st2 : gmap string LparState) (w w1 w2 : World G) :
  ticked cfg l1 st w st1 w1 -> ticked cfg l2 st1 w1 st2 w2 -> ticked cfg l1 st w st2 w2.
Proof.
  intros (Hf1 & Hb1 & Hc1) (Hf2 & Hb2 & Hc2).
  split; [exact (same_fixed_trans _ _ _ Hf1 Hf2)|].
  split; [auto | exact (calls_ok_trans _ _ _ _ _ _ Hc1 Hc2)].
Qed.

(** [n] iterations of [while True].  The loop stops only on the
    [ValueError] of a negative sleep, and then after the first tick. *)
Lemma run_ticks_post (cfg : config) (started : Q) (n : nat) :
  forall (state : gmap string LparState) (w : World G),
    covers cfg state ->
    post (run_ticks cfg started n state) w
      (fun state' w' =>
         (n = O \/ 0 <= INTERVAL cfg) /\
         ticked cfg (ticked_lpars cfg n) state w state' w')
      (fun e w' =>
         e = ValueError /\ INTERVAL cfg < 0 /\ n <> O /\
         exists state', ticked cfg (ticked_lpars cfg n) state w state' w').
Proof.
  induction n as [|k IH]; intros state w Hcov; simpl.
  - apply post_ret. split; [left; reflexivity|].
    split; [apply same_fixed_refl|]. split; [auto | apply calls_ok_refl].
  - apply post_bind.
    eapply post_conseq; [apply tick_post; exact Hcov | | ].
    + intros st1 w1 [Hi Ht]. simpl in *.
      assert (Hcov1 : covers cfg st1).
      { destruct Ht as (Hf & _). exact (same_fixed_covers cfg _ _ Hf Hcov). }
      eapply post_conseq; [apply (IH st1 w1 Hcov1) | | ].
      * intros st2 w2 [_ Ht2]. simpl in *.
        split; [right; exact Hi | exact (ticked_trans _ _ _ _ _ _ _ _ _ Ht Ht2)].
      * intros e w2 (He & Hneg & _ & st2 & Ht2). simpl in *.
        split; [exact He|]. split; [exact Hneg|]. split; [discriminate|].
        exists st2. exact (ticked_trans _ _ _ _ _ _ _ _ _ Ht Ht2).
    + intros e w1 (He & Hneg & st1 & Ht). simpl in *.
      split; [exact He|]. split; [exact Hneg|]. split; [discriminate|].
      exists st1. exact Ht.
Qed.

(** The gauges of the static totals. *)
Lemma static_totals_post (cfg : config) (state : gmap string LparState) (w : World G) :
  covers cfg state ->
  returns (for_each (LPARS cfg)
             (fun lpar =>
                let* s := getitem state lpar in
                gauge_set MEM_TOTAL [lpar; SYSPLEX cfg] (inject_Z (mem_total s)))) w
    (fun _ w' => calls_ok cfg [] w w').
Proof.
  intro Hcov.
  eapply post_conseq;
    [ apply (for_each_emits (LPARS cfg) _
               (fun _ evs => Forall share_ok evs /\ Forall latency_drawn evs))
    | | auto ].
  - intros lpar w1 Hin. destruct (Hcov lpar Hin) as [s Hs].
    unfold emits, returns. apply post_bind.
    apply (getitem_post state lpar s); [exact Hs|].
    unfold gauge_set. apply post_emit. simpl.
    eexists. split; [reflexivity|]. split; repeat constructor.
  - intros u w1 (evs & Hs & evss & -> & Hf). simpl in Hs.
    exists (concat evss). split; [exact Hs|].
    split; [|split].
    + apply Forall_concat_of.
      apply (Forall2_right _ _ _ _ Hf). intros x y _ [Hy _]. exact Hy.
    + apply Forall_concat_of.
      apply (Forall2_right _ _ _ _ Hf). intros x y _ [_ Hy]. exact Hy.
    + intros lpar [].
Qed.

End Run.

(** ** Initialisation, for a lawful generator *)

Section Lawful.

Context {G : Type} {I : Interp G} {L : InterpLaws G}.

Lemma uniform_range (a b : Q) (g : G) :
  a <= b -> a <= fst (uniform a b g) /\ fst (uniform a b g) <= b.
Proof.
  intro Hab. unfold uniform.
  pose proof (random_unit g) as [H0 H1].
  destruct (random g) as [u g']. simpl in *. split; nra.
Qed.

Lemma choice_in {A} (x : A) (xs : list A) (g : G) :
  In (fst (choice x xs g)) (x :: xs).
Proof.
  unfold choice.
  pose proof (randbelow_lt (length (x :: xs)) g) as Hlt.
  destruct (randbelow (length (x :: xs)) g) as [i g']. cbn [fst] in *.
  apply nth_In. apply Hlt. simpl. lia.
Qed.

Lemma init_lpar_post (w : World G) :
  returns init_lpar w (fun s w' => init_ranges s /\ w_sink w' = w_sink w).
Proof.
  unfold returns, init_lpar. repeat py_step.
  split; [|reflexivity]. unfold init_ranges.
  cbn [mem_total mem_used mips_cap cpu ziip iops jobq cfq].
  split. { eexists. split; [apply (choice_in 32%Z) | reflexivity]. }
  split.
  { eexists. split; [|split; [|reflexivity]]; apply uniform_range; lra. }
  split. { apply (choice_in 8000%Z). }
  repeat split; apply uniform_range; lra.
Qed.

Lemma init_ranges_in_bounds (s : LparState) : init_ranges s -> in_bounds s.
Proof.
  intros ((gib & Hg & Ht) & (r & Hr0 & Hr1 & Hu) & _ & Hc & Hz & Hi & Hj & Hf).
  assert (Hpos : 0 < inject_Z (mem_total s)).
  { rewrite Ht. change 0 with (inject_Z 0). rewrite <- Zlt_Qlt.
    change (1024 ^ 3)%Z with 1073741824%Z.
    unfold MEMORY_TIERS in Hg. simpl in Hg.
    destruct Hg as [<-|[<-|[<-|[<-|[<-|[]]]]]]; lia. }
  unfold in_bounds. rewrite Hu.
  repeat split; try lra; nra.
Qed.

Lemma init_state_from (lpars : list string) :
  forall (acc : gmap string LparState) (w : World G),
    every init_ranges acc ->
    returns (fold_each lpars
               (fun lpar state => let* s := init_lpar in ret (<[lpar := s]> state))
               acc) w
      (fun state w' =>
         (forall lpar, In lpar lpars \/ (exists s, acc !! lpar = Some s) ->
                       exists s, state !! lpar = Some s) /\
         every init_ranges state /\
         w_sink w' = w_sink w).
Proof.
  induction lpars as [|x rest IH]; intros acc w Hacc; unfold returns; simpl.
  - apply post_ret. split; [|split; [exact Hacc | reflexivity]].
    intros lpar [[]|Hs]. exact Hs.
  - apply post_bind. apply post_bind.
    eapply post_conseq; [apply init_lpar_post | | auto].
    intros s w1 [Hr Hs1]. simpl in *. apply post_ret.
    eapply post_conseq;
      [ apply (IH (<[x := s]> acc) w1); apply every_insert; assumption | | auto ].
    intros st w2 (Hcov & Hall & Hs2). simpl in *.
    split; [|split; [exact Hall | rewrite Hs2; exact Hs1]].
    intros lpar [[<-|Hin]|[s0 Hs0]].
    + apply Hcov. right. exists s. apply lookup_insert_eq.
    + apply Hcov. left. exact Hin.
    + apply Hcov. right. destruct (decide (x = lpar)) as [<-|Hne].
      * exists s. apply lookup_insert_eq.
      * exists s0. rewrite lookup_insert_ne by exact Hne. exact Hs0.
Qed.

Lemma init_state_post (lpars : list string) (w : World G) :
  returns (init_state lpars) w
    (fun state w' =>
       (forall lpar, In lpar lpars -> exists s, state !! lpar = Some s) /\
       every init_ranges state /\
       w_sink w' = w_sink w).
Proof.
  unfold init_state.
  eapply post_conseq; [apply (init_state_from lpars ∅ w) | | auto].
  - intros lpar s Hs. rewrite lookup_empty in Hs. discriminate.
  - intros st w' (Hcov & Hall & Hs). simpl in *.
    split; [|split; assumption].
    intros lpar Hin. apply Hcov. left. exact Hin.
Qed.

(** [simulate_loop], cut after [n] iterations. *)
Lemma simulate_loop_post (cfg : config) (n : nat) (w : World G) :
  post (simulate_loop cfg n) w
    (fun state w' =>
       (n = O \/ 0 <= INTERVAL cfg) /\
       covers cfg state /\
       every in_bounds state /\
       calls_ok cfg (ticked_lpars cfg n) w w')
    (fun e w' =>
       e = ValueError /\ INTERVAL cfg < 0 /\ n <> O /\
       calls_ok cfg (ticked_lpars cfg n) w w').
Proof.
  unfold simulate_loop.
  apply post_bind. apply post_now.
  apply post_bind.
  eapply post_conseq; [apply init_state_post | | intros e w' []].
  intros st0 w1 (Hcov & Hall & Hs1). simpl in Hs1.
  apply post_bind.
  eapply post_conseq; [apply (static_totals_post cfg st0 w1 Hcov) | | intros e w' []].
  intros u w2 Hc2. simpl in Hc2.
  assert (Hc02 : calls_ok cfg [] w w2).
  { destruct Hc2 as (evs & Hs & Hrest). exists evs.
    split; [rewrite Hs, Hs1; reflexivity | exact Hrest]. }
  assert (Hb0 : every in_bounds st0).
  { intros lpar s Hs. apply init_ranges_in_bounds. exact (Hall lpar s Hs). }
  eapply post_conseq; [apply (run_ticks_post cfg _ n st0 w2 Hcov) | | ].
  - intros st w3 (Hi & Hf & Hb & Hc3). simpl in *.
    split; [exact Hi|].
    split; [exact (same_fixed_covers cfg _ _ Hf Hcov)|].
    split; [exact (Hb Hb0)|].
    destruct Hc02 as (evs1 & Hsa & Hsh1 & Hl1 & _).
    destruct Hc3 as (evs2 & Hsb & Hsh2 & Hl2 & Hcpu).
    exists (evs1 ++ evs2).
    split; [rewrite Hsb, Hsa, app_assoc; reflexivity|].
    split; [apply Forall_app; split; assumption|].
    split; [apply Forall_app; split; assumption|].
    intros lpar Hin. destruct (Hcpu lpar Hin) as [v Hv].
    exists v. apply in_or_app. right. exact Hv.
  - intros e w3 (He & Hneg & Hn & st & Hf & Hb & Hc3). simpl in *.
    split; [exact He|]. split; [exact Hneg|]. split; [exact Hn|].
    destruct Hc02 as (evs1 & Hsa & Hsh1 & Hl1 & _).
    destruct Hc3 as (evs2 & Hsb & Hsh2 & Hl2 & Hcpu).
    exists (evs1 ++ evs2).
    split; [rewrite Hsb, Hsa, app_assoc; reflexivity|].
    split; [apply Forall_app; split; assumption|].
    split; [apply Forall_app; split; assumption|].
    intros lpar Hin. destruct (Hcpu lpar Hin) as [v Hv].
    exists v. apply in_or_app. right. exact Hv.
Qed.

End Lawful.

(** ** Two runs under different clocks *)

Section Agreement.

Context {G : Type} {I : Interp G}.

Lemma agree_ret {A} (a : A) : agree (G := G) (ret a) (ret a).
Proof. intros w1 w2 Hw. split; [reflexivity | exact Hw]. Qed.

Lemma agree_raise {A} (e : PyError) : agree (G := G) (A := A) (raise e) (raise e).
Proof. intros w1 w2 Hw. split; [reflexivity | exact Hw]. Qed.

Lemma agree_bind {A B} (m1 m2 : Py G A) (k1 k2 : A -> Py G B) :
  agree m1 m2 -> (forall a, agree (k1 a) (k2 a)) -> agree (bind m1 k1) (bind m2 k2).
Proof.
  intros Hm Hk w1 w2 Hw. unfold bind.
  destruct (Hm w1 w2 Hw) as [Hr Hw'].
  destruct (m1 w1) as [[a1|e1] w1'], (m2 w2) as [[a2|e2] w2'];
    simpl in Hr, Hw'; try discriminate.
  - injection Hr as ->. apply Hk. exact Hw'.
  - injection Hr as ->. split; [reflexivity | exact Hw'].
Qed.

Lemma agree_draw {A} (f : G -> A * G) : agree (draw f) (draw f).
Proof.
  intros w1 w2 [Hg Hs]. unfold draw. rewrite Hg.
  destruct (f (w_rng w2)) as [a g']. simpl. split; [reflexivity|].
  split; [reflexivity | exact Hs].
Qed.

Lemma agree_emit (e : Emit) : agree (G := G) (emit e) (emit e).
Proof.
  intros w1 w2 [Hg Hs]. unfold emit. simpl. split; [reflexivity|].
  split; [exact Hg|]. simpl. rewrite !List.filter_app, Hs. reflexivity.
Qed.

(** The uptime gauge is the one call that may differ. *)
Lemma agree_uptime (labels : list string) (v1 v2 : Q) :
  agree (G := G) (gauge_set UPTIME labels v1) (gauge_set UPTIME labels v2).
Proof.
  intros w1 w2 [Hg Hs]. unfold gauge_set, emit. simpl. split; [reflexivity|].
  split; [exact Hg|]. simpl. rewrite !List.filter_app, Hs. reflexivity.
Qed.

(** What follows a reading of the clock may not depend on it. *)
Lemma agree_now_bind {B} (k1 k2 : Q -> Py G B) :
  (forall t1 t2, agree (k1 t1) (k2 t2)) -> agree (bind now k1) (bind now k2).
Proof.
  intros Hk w1 w2 [Hg Hs]. unfold bind, now. apply Hk.
  split; [exact Hg | exact Hs].
Qed.

Lemma agree_for_each {A} (xs : list A) (b1 b2 : A -> Py G unit) :
  (forall x, agree (b1 x) (b2 x)) -> agree (for_each xs b1) (for_each xs b2).
Proof.
  intro Hb. induction xs as [|x rest IH]; simpl.
  - apply agree_ret.
  - apply agree_bind; [apply Hb | intros _; exact IH].
Qed.

Lemma agree_for_range (n : nat) (b1 b2 : Py G unit) :
  agree b1 b2 -> agree (for_range n b1) (for_range n b2).
Proof.
  intro Hb. induction n as [|k IH]; simpl.
  - apply agree_ret.
  - apply agree_bind; [exact Hb | intros _; exact IH].
Qed.

Lemma agree_fold_each {A S} (xs : list A) (b1 b2 : A -> S -> Py G S) :
  (forall x acc, agree (b1 x acc) (b2 x acc)) ->
  forall acc, agree (fold_each xs b1 acc) (fold_each xs b2 acc).
Proof.
  intro Hb. induction xs as [|x rest IH]; intro acc; simpl.
  - apply agree_ret.
  - apply agree_bind; [apply Hb | intro acc'; apply IH].
Qed.

Lemma agree_getitem (state : gmap string LparState) (lpar : string) :
  agree (G := G) (getitem state lpar) (getitem state lpar).
Proof.
  unfold getitem. destruct (state !! lpar); [apply agree_ret | apply agree_raise].
Qed.

Lemma agree_py_div (x y : Q) : agree (G := G) (py_div x y) (py_div x y).
Proof.
  unfold py_div. destruct (Qeq_bool y 0); [apply agree_raise | apply agree_ret].
Qed.

Lemma agree_sleep (secs : Q) : agree (G := G) (sleep secs) (sleep secs).
Proof.
  unfold sleep. destruct (Qltb secs 0); [apply agree_raise | apply agree_ret].
Qed.

End Agreement.

(** A program without a clock reading agrees with itself. *)
Ltac agree_auto :=
  repeat first
    [ apply agree_ret
    | apply agree_raise
    | apply agree_draw
    | apply agree_emit
    | apply agree_getitem
    | apply agree_py_div
    | apply agree_sleep
    | apply agree_for_each; intro
    | apply agree_for_range
    | apply agree_bind; [|intro] ].

Section AgreementOfTheRun.

Context {G : Type} {I : Interp G}.

Lemma agree_init_state (lpars : list string) :
  agree (init_state (G := G) lpars) (init_state lpars).
Proof.
  unfold init_state. apply agree_fold_each. intros lpar acc.
  unfold init_lpar. agree_auto.
Qed.

Lemma agree_walk (s : LparState) : agree (walk (G := G) s) (walk s).
Proof. unfold walk. agree_auto. Qed.

Lemma agree_publish (cfg : config) (lpar : string) (s : LparState) (mips u1 u2 : Q) :
  agree (publish (G := G) cfg lpar s mips u1) (publish cfg lpar s mips u2).
Proof.
  unfold publish.
  do 7 (apply agree_bind; [unfold gauge_set; apply agree_emit | intros _]).
  apply agree_uptime.
Qed.

Lemma agree_draw_weights {A} (xs : list A) :
  agree (draw_weights (G := G) xs) (draw_weights xs).
Proof.
  induction xs as [|x rest IH]; simpl.
  - apply agree_ret.
  - apply agree_bind; [apply agree_draw | intro u].
    apply agree_bind; [exact IH | intro ws]. apply agree_ret.
Qed.

Lemma agree_address_spaces (cfg : config) (lpar : string) (s : LparState) :
  agree (address_spaces (G := G) cfg lpar s) (address_spaces cfg lpar s).
Proof.
  unfold address_spaces.
  apply agree_bind; [apply agree_draw_weights | intro ws].
  apply agree_for_each. intro aw.
  unfold address_space, gauge_set. agree_auto.
Qed.

Lemma agree_sample_service (cfg : config) (lpar : string) (s : LparState)
    (service : string) :
  agree (sample_service (G := G) cfg lpar s service) (sample_service cfg lpar s service).
Proof. unfold sample_service, transaction. agree_auto. Qed.

Lemma agree_tick_lpar (cfg : config) (u1 u2 : Q) (lpar : string)
    (state : gmap string LparState) :
  agree (tick_lpar (G := G) cfg u1 lpar state) (tick_lpar cfg u2 lpar state).
Proof.
  unfold tick_lpar.
  apply agree_bind; [apply agree_getitem | intro s].
  apply agree_bind; [apply agree_walk | intro sm].
  apply agree_bind; [apply agree_publish | intros _].
  apply agree_bind; [apply agree_address_spaces | intros _].
  apply agree_bind; [|intros _; apply agree_ret].
  apply agree_for_each. intro service. apply agree_sample_service.
Qed.

Lemma agree_tick (cfg : config) (started1 started2 : Q)
    (state : gmap string LparState) :
  agree (tick (G := G) cfg started1 state) (tick cfg started2 state).
Proof.
  unfold tick. apply agree_now_bind. intros t1 t2.
  apply agree_bind.
  - unfold tick_lpars. apply agree_fold_each. intros lpar acc. apply agree_tick_lpar.
  - intro state'. apply agree_bind; [apply agree_sleep | intros _; apply agree_ret].
Qed.

Lemma agree_run_ticks (cfg : config) (started1 started2 : Q) (n : nat) :
  forall state,
    agree (run_ticks (G := G) cfg started1 n state) (run_ticks cfg started2 n state).
Proof.
  induction n as [|k IH]; intro state; simpl.
  - apply agree_ret.
  - apply agree_bind; [apply agree_tick | intro state'; apply IH].
Qed.

Lemma agree_simulate_loop (cfg : config) (n : nat) :
  agree (simulate_loop (G := G) cfg n) (simulate_loop cfg n).
Proof.
  unfold simulate_loop. apply agree_now_bind. intros t1 t2.
  apply agree_bind; [apply agree_init_state | intro state].
  apply agree_bind; [|intros _; apply agree_run_ticks].
  apply agree_for_each. intro lpar. unfold gauge_set. agree_auto.
Qed.

End AgreementOfTheRun.

(** ** The concrete generator is lawful *)

Lemma lcg_step_range (s : Z) : (0 <= Lcg.step s < 2147483648)%Z.
Proof. unfold Lcg.step. apply Z.mod_pos_bound. lia. Qed.

#[global] Instance Lcg_laws : InterpLaws Z.
Proof.
  split.
  - intro g. simpl. unfold Lcg.next_unit. simpl.
    pose proof (lcg_step_range g) as [H0 H1].
    unfold Qle, Qlt. simpl. lia.
  - intros n g Hn. simpl. unfold Lcg.next_below. simpl.
    pose proof (Z.mod_pos_bound (Lcg.step g) (Z.of_nat n)). lia.
  - intros mu sigma g. simpl. unfold Lcg.next_lognormal. simpl.
    pose proof (lcg_step_range g) as [H0 H1].
    unfold Qlt. simpl. lia.
Qed.

(** Comparisons of concrete rationals, by evaluation. *)
Ltac q_decide := vm_compute; first [reflexivity | discriminate].

Lemma demo_state_covers : covers demo_cfg demo_state.
Proof.
  intros lpar [<-|[]]. exists demo_lpar. apply lookup_singleton_eq.
Qed.

Lemma demo_lpar_in_bounds : in_bounds demo_lpar.
Proof. unfold in_bounds. repeat split; q_decide. Qed.

Lemma demo_state_in_bounds : every in_bounds demo_state.
Proof.
  intros lpar s Hs. unfold demo_state in Hs.
  apply lookup_singleton_Some in Hs as [_ <-].
  exact demo_lpar_in_bounds.
Qed.

(** ** What a program adds to the registry, in either outcome *)

Section Adding.

Context {G : Type}.
Variable P : list Emit -> Prop.
Hypothesis P_nil : P [].
Hypothesis P_app : forall a b, P a -> P b -> P (a ++ b).

Lemma adds_ret {A} (a : A) : adds (G := G) P (ret a).
Proof. intro w. exists []. split; [simpl; rewrite app_nil_r; reflexivity | exact P_nil]. Qed.

Lemma adds_raise {A} (e : PyError) : adds (G := G) (A := A) P (raise e).
Proof. intro w. exists []. split; [simpl; rewrite app_nil_r; reflexivity | exact P_nil]. Qed.

Lemma adds_draw {A} (f : G -> A * G) : adds P (draw f).
Proof.
  intro w. exists []. unfold draw. destruct (f (w_rng w)) as [a g'].
  split; [simpl; rewrite app_nil_r; reflexivity | exact P_nil].
Qed.

Lemma adds_now : adds (G := G) P now.
Proof. intro w. exists []. split; [simpl; rewrite app_nil_r; reflexivity | exact P_nil]. Qed.

Lemma adds_emit (e : Emit) : P [e] -> adds (G := G) P (emit e).
Proof. intros He w. exists [e]. split; [reflexivity | exact He]. Qed.

(** A program that returns after adding calls that satisfy [P] adds such
    calls. *)
Lemma emits_adds {A} (m : Py G A) :
  (forall w, emits m w (fun _ evs => P evs)) -> adds P m.
Proof.
  intros Hm w. specialize (Hm w). unfold emits, returns, post in Hm.
  destruct (m w) as [[a|e] w']; [|contradiction]. exact Hm.
Qed.

Lemma adds_bind {A B} (m : Py G A) (k : A -> Py G B) :
  adds P m -> (forall a, adds P (k a)) -> adds P (bind m k).
Proof.
  intros Hm Hk w. unfold bind.
  destruct (Hm w) as (evs1 & Hs1 & Hp1).
  destruct (m w) as [[a|e] w1]; simpl in Hs1.
  - destruct (Hk a w1) as (evs2 & Hs2 & Hp2).
    exists (evs1 ++ evs2).
    split; [rewrite Hs2, Hs1, app_assoc; reflexivity | exact (P_app _ _ Hp1 Hp2)].
  - exists evs1. split; [exact Hs1 | exact Hp1].
Qed.

(** The same, when what follows needs a fact [R] on the value returned. *)
Lemma adds_bind_with {A B} (R : A -> Prop) (m : Py G A) (k : A -> Py G B) :
  (forall w, returns m w (fun a w' => w_sink w' = w_sink w /\ R a)) ->
  (forall a, R a -> adds P (k a)) ->
  adds P (bind m k).
Proof.
  intros Hm Hk w. unfold bind.
  specialize (Hm w). unfold returns, post in Hm.
  destruct (m w) as [[a|e] w1]; [|contradiction].
  destruct Hm as [Hs1 Hr].
  destruct (Hk a Hr w1) as (evs & Hs & Hp).
  exists evs. split; [rewrite Hs, Hs1; reflexivity | exact Hp].
Qed.

Lemma adds_for_each {A} (xs : list A) (body : A -> Py G unit) :
  (forall x, In x xs -> adds P (body x)) -> adds P (for_each xs body).
Proof.
  induction xs as [|x rest IH]; intro Hb; simpl.
  - apply adds_ret.
  - apply adds_bind; [apply Hb; left; reflexivity|].
    intros _. apply IH. intros y Hy. apply Hb. right. exact Hy.
Qed.

Lemma adds_for_range (n : nat) (body : Py G unit) :
  adds P body -> adds P (for_range n body).
Proof.
  intro Hb. induction n as [|k IH]; simpl.
  - apply adds_ret.
  - apply adds_bind; [exact Hb | intros _; exact IH].
Qed.

Lemma adds_fold_each {A S} (xs : list A) (body : A -> S -> Py G S) :
  (forall x acc, In x xs -> adds P (body x acc)) ->
  forall acc, adds P (fold_each xs body acc).
Proof.
  induction xs as [|x rest IH]; intros Hb acc; simpl.
  - apply adds_ret.
  - apply adds_bind; [apply Hb; left; reflexivity|].
    intro acc'. apply IH. intros y acc2 Hy. apply Hb. right. exact Hy.
Qed.

Lemma adds_getitem (state : gmap string LparState) (lpar : string) :
  adds (G := G) P (getitem state lpar).
Proof.
  unfold getitem. destruct (state !! lpar); [apply adds_ret | apply adds_raise].
Qed.

Lemma adds_py_div (x y : Q) : adds (G := G) P (py_div x y).
Proof.
  unfold py_div. destruct (Qeq_bool y 0); [apply adds_raise | apply adds_ret].
Qed.

Lemma adds_sleep (secs : Q) : adds (G := G) P (sleep secs).
Proof.
  unfold sleep. destruct (Qltb secs 0); [apply adds_raise | apply adds_ret].
Qed.

(** In terms of [post]: both outcomes leave the added calls. *)
Lemma adds_post {A} (m : Py G A) (w : World G) :
  adds P m ->
  post m w
    (fun _ w' => exists evs, w_sink w' = w_sink w ++ evs /\ P evs)
    (fun _ w' => exists evs, w_sink w' = w_sink w ++ evs /\ P evs).
Proof.
  intro Hm. specialize (Hm w). unfold post.
  destruct (m w) as [[a|e] w']; exact Hm.
Qed.

End Adding.

Lemma zip_In_fst {A B} (xs : list A) (ys : list B) (p : A * B) :
  In p (zip xs ys) -> In (fst p) xs.
Proof.
  revert ys. induction xs as [|x xs IH]; intros [|y ys] Hin; simpl in *;
    try contradiction.
  destruct Hin as [<-|Hin]; [left; reflexivity | right; exact (IH ys Hin)].
Qed.

(** The five fixed intervals hold after the walk, whatever the record. *)
Lemma walk_fixed_bounds {G : Type} {I : Interp G} (s : LparState) (w : World G) :
  returns (walk s) w (fun sm w' => w_sink w' = w_sink w /\ walk_bounds (fst sm)).
Proof.
  unfold returns, walk. repeat py_step.
  unfold set_mem_used, set_cfq, set_jobq, set_iops, set_ziip, set_cpu. simpl.
  split; [reflexivity|]. unfold walk_bounds. simpl.
  repeat split; apply clamp_bounds; lra.
Qed.

(** ** A property of the calls of the pieces is one of the calls of the run *)

Section AddingInTheRun.

Context {G : Type} {I : Interp G}.
Variable P : list Emit -> Prop.
Variable cfg : config.
Hypothesis P_nil : P [].
Hypothesis P_app : forall a b, P a -> P b -> P (a ++ b).

Hypothesis P_total : forall lpar v,
  In lpar (LPARS cfg) -> P [mkEmit MEM_TOTAL [lpar; SYSPLEX cfg] (GaugeSet v)].
Hypothesis P_gauges : forall lpar s mips uptime,
  In lpar (LPARS cfg) -> walk_bounds s -> P (gauges cfg lpar s mips uptime).
Hypothesis P_as_cpu : forall lpar addr v,
  In lpar (LPARS cfg) -> In addr ADDRESS_SPACES -> 0 <= v -> v <= 100 ->
  P [mkEmit AS_CPU [lpar; SYSPLEX cfg; addr] (GaugeSet v)].
Hypothesis P_as_rss : forall lpar addr v,
  In lpar (LPARS cfg) -> In addr ADDRESS_SPACES ->
  P [mkEmit AS_RSS [lpar; SYSPLEX cfg; addr] (GaugeSet v)].
Hypothesis P_txn : forall lpar service v,
  In lpar (LPARS cfg) -> In service SERVICES ->
  P [mkEmit TXN_LAT [lpar; SYSPLEX cfg; service] (Observe v);
     mkEmit TXN_TOTAL [lpar; SYSPLEX cfg; service] Inc].

Lemma adds_init_state (lpars : list string) : adds P (init_state (G := G) lpars).
Proof.
  unfold init_state. apply (adds_fold_each P P_nil P_app). intros lpar acc _.
  unfold init_lpar.
  repeat first [ apply (adds_ret P P_nil)
               | apply (adds_draw P P_nil)
               | apply (adds_bind P P_app); [|intro] ].
Qed.

Lemma adds_address_spaces (lpar : string) (s : LparState) :
  In lpar (LPARS cfg) -> adds P (address_spaces (G := G) cfg lpar s).
Proof.
  intro Hl. unfold address_spaces.
  apply (adds_bind_with P (fun ws => True)).
  - intro w. eapply post_conseq; [apply draw_weights_post | | auto].
    intros ws w' [_ Hs]. split; [exact Hs | exact Logic.I].
  - intros ws _. apply (adds_for_each P P_nil P_app). intros aw Haw.
    apply zip_In_fst in Haw.
    unfold address_space, gauge_set.
    apply (adds_bind P P_app); [apply (adds_py_div P P_nil) | intro share].
    apply (adds_bind P P_app); [apply (adds_draw P P_nil) | intro u].
    apply (adds_bind P P_app).
    + apply adds_emit. apply P_as_cpu; [exact Hl | exact Haw | |];
        apply clamp_bounds; lra.
    + intros _.
      apply (adds_bind P P_app); [apply (adds_draw P P_nil) | intro u'].
      apply adds_emit. apply P_as_rss; [exact Hl | exact Haw].
Qed.

Lemma adds_sample_service (lpar : string) (s : LparState) (service : string) :
  In lpar (LPARS cfg) -> In service SERVICES ->
  adds P (sample_service (G := G) cfg lpar s service).
Proof.
  intros Hl Hsv. unfold sample_service.
  apply (adds_bind P P_app); [apply (adds_draw P P_nil) | intro u].
  apply (adds_for_range P P_nil P_app).
  apply emits_adds. intro w.
  eapply emits_conseq; [apply transaction_emits|].
  intros _ evs ->. unfold transaction_calls. apply P_txn; assumption.
Qed.

(** The body of the loop over the LPARs, for the uptime it is given. *)
Lemma adds_tick_lpar (uptime : Q) (lpar : string) (state : gmap string LparState) :
  In lpar (LPARS cfg) ->
  (forall s mips, walk_bounds s -> P (gauges cfg lpar s mips uptime)) ->
  adds P (tick_lpar (G := G) cfg uptime lpar state).
Proof.
  intros Hl Hg. unfold tick_lpar.
  apply (adds_bind P P_app); [apply (adds_getitem P P_nil) | intro s].
  apply (adds_bind_with P (fun sm => walk_bounds (fst sm)));
    [intro w; apply walk_fixed_bounds|].
  intros sm Hb.
  apply (adds_bind P P_app).
  { apply emits_adds. intro w.
    eapply post_conseq; [apply publish_post | | auto].
    intros u w' [_ Hs]. eexists. split; [exact Hs|]. apply Hg. exact Hb. }
  intros _.
  apply (adds_bind P P_app); [apply adds_address_spaces; exact Hl | intros _].
  apply (adds_bind P P_app); [|intros _; apply (adds_ret P P_nil)].
  apply (adds_for_each P P_nil P_app). intros service Hsv.
  apply adds_sample_service; assumption.
Qed.

Lemma adds_tick (started : Q) (state : gmap string LparState) :
  adds P (tick (G := G) cfg started state).
Proof.
  unfold tick.
  apply (adds_bind P P_app); [apply (adds_now P P_nil) | intro t].
  apply (adds_bind P P_app).
  - unfold tick_lpars. apply (adds_fold_each P P_nil P_app). intros lpar acc Hl.
    apply adds_tick_lpar; [exact Hl|]. intros s mips Hb. apply P_gauges; assumption.
  - intro state'.
    apply (adds_bind P P_app); [apply (adds_sleep P P_nil) | intros _].
    apply (adds_ret P P_nil).
Qed.

Lemma adds_run_ticks (started : Q) (n : nat) :
  forall state, adds P (run_ticks (G := G) cfg started n state).
Proof.
  induction n as [|k IH]; intro state; simpl.
  - apply (adds_ret P P_nil).
  - apply (adds_bind P P_app); [apply adds_tick | intro state'; apply IH].
Qed.

Lemma adds_simulate_loop (n : nat) : adds P (simulate_loop (G := G) cfg n).
Proof.
  unfold simulate_loop.
  apply (adds_bind P P_app); [apply (adds_now P P_nil) | intro started].
  apply (adds_bind P P_app); [apply adds_init_state | intro state].
  apply (adds_bind P P_app); [|intros _; apply adds_run_ticks].
  apply (adds_for_each P P_nil P_app). intros lpar Hl.
  apply (adds_bind P P_app); [apply (adds_getitem P P_nil) | intro s].
  unfold gauge_set. apply adds_emit. apply P_total. exact Hl.
Qed.

End AddingInTheRun.

(** ** The draws of the initialisation *)

Section Drawn.

Context {G : Type} {I : Interp G}.

Lemma returns_and {A} (m : Py G A) (w : World G) (Q1 Q2 : A -> World G -> Prop) :
  returns m w Q1 -> returns m w Q2 -> returns m w (fun a w' => Q1 a w' /\ Q2 a w').
Proof.
  unfold returns, post. destruct (m w) as [[a|e] w']; [split; assumption | tauto].
Qed.

Lemma init_lpar_drawn (w : World G) :
  returns init_lpar w
    (fun s w' => drawn_from (w_rng w) s /\ w_rng w' = after_draws (w_rng w)).
Proof.
  unfold returns, init_lpar. repeat py_step.
  split; [|reflexivity]. unfold drawn_from. repeat split; reflexivity.
Qed.

Lemma init_state_drawn_from (lpars : list string) :
  forall (acc : gmap string LparState) (w : World G),
    returns (fold_each lpars
               (fun lpar state => let* s := init_lpar in ret (<[lpar := s]> state))
               acc) w
      (fun state w' =>
         (forall lpar, In lpar lpars ->
            exists s k,
              state !! lpar = Some s /\
              lpars !! k = Some lpar /\
              (forall j, (k < j)%nat -> lpars !! j <> Some lpar) /\
              drawn_from (skip_lpars k (w_rng w)) s) /\
         (forall lpar, ~ In lpar lpars -> state !! lpar = acc !! lpar) /\
         w_rng w' = skip_lpars (length lpars) (w_rng w)).
Proof.
  induction lpars as [|x rest IH]; intros acc w; unfold returns; simpl.
  - apply post_ret. split; [intros lpar []|]. split; reflexivity.
  - apply post_bind. apply post_bind.
    eapply post_conseq; [apply init_lpar_drawn | | auto].
    intros s w1 [Hd Hg1]. simpl in *. apply post_ret.
    eapply post_conseq; [apply (IH (<[x := s]> acc) w1) | | auto].
    intros st w2 (Hin & Hout & Hg2). simpl in *.
    rewrite Hg1 in Hin, Hg2.
    split; [|split; [|exact Hg2]].
    + intros lpar Hl.
      destruct (decide (lpar ∈ rest)) as [Hr|Hr].
      * apply list_elem_of_In in Hr.
        destruct (Hin lpar Hr) as (s' & k & Hs' & Hk & Hlast & Hd').
        exists s', (S k). split; [exact Hs'|]. split; [exact Hk|].
        split; [|exact Hd'].
        intros [|j] Hj; [lia|]. simpl. apply Hlast. lia.
      * assert (Hx : lpar = x).
        { destruct Hl as [<-|Hl]; [reflexivity|].
          exfalso. apply Hr. apply list_elem_of_In. exact Hl. }
        subst lpar.
        exists s, O. split; [|split; [reflexivity | split; [|exact Hd]]].
        -- rewrite Hout by (intro Hc; apply Hr, list_elem_of_In, Hc).
           apply lookup_insert_eq.
        -- intros [|j] Hj; [lia|]. simpl. intro Hc.
           apply Hr. apply (list_elem_of_lookup_2 _ j). exact Hc.
    + intros lpar Hn.
      rewrite Hout by (intro Hc; apply Hn; right; exact Hc).
      apply lookup_insert_ne. intros ->. apply Hn. left. reflexivity.
Qed.

End Drawn.

(** ** The depth a latency is sampled at *)

Section Depth.

Context {G : Type} {I : Interp G}.

Lemma depth_ok_app (a b : list Emit) :
  forall cur, depth_ok cur (a ++ b) <-> depth_ok cur a /\ depth_ok (fold_left track a cur) b.
Proof.
  induction a as [|e a IH]; intro cur; simpl.
  - tauto.
  - rewrite IH. tauto.
Qed.

Lemma tracked_nil : tracked (G := G) [].
Proof. intro cur. exact Logic.I. Qed.

Lemma tracked_app (a b : list Emit) : tracked a -> tracked b -> tracked (a ++ b).
Proof.
  intros Ha Hb cur. apply depth_ok_app. split; [apply Ha | apply Hb].
Qed.

Lemma at_depth_nil (labels : list string) (d : Q) : at_depth labels d [].
Proof. intros cur Hc. split; [exact Logic.I | exact Hc]. Qed.

Lemma at_depth_app (labels : list string) (d : Q) (a b : list Emit) :
  at_depth labels d a -> at_depth labels d b -> at_depth labels d (a ++ b).
Proof.
  intros Ha Hb cur Hc. destruct (Ha cur Hc) as [Hoa Hca].
  destruct (Hb _ Hca) as [Hob Hcb].
  split; [apply depth_ok_app; split; assumption|].
  rewrite fold_left_app. exact Hcb.
Qed.

(** A gauge other than JOBQ changes nothing. *)
Lemma at_depth_gauge (labels l : list string) (d v : Q) (m : Metric) :
  m <> JOBQ -> at_depth labels d [mkEmit m l (GaugeSet v)].
Proof.
  intros Hm cur Hc. unfold track, sampled_at. simpl.
  destruct m; try contradiction; (split; [split; exact Logic.I | exact Hc]).
Qed.

Lemma tracked_gauge (l : list string) (v : Q) (m : Metric) :
  m <> JOBQ -> tracked (G := G) [mkEmit m l (GaugeSet v)].
Proof.
  intros Hm cur. unfold sampled_at. simpl.
  destruct m; try contradiction; split; exact Logic.I.
Qed.

(** The two calls of a transaction sampled at the depth that is set. *)
Lemma at_depth_transaction {L : InterpLaws G} (cfg : config) (lpar : string)
    (s : LparState) (service : string) (g : G) :
  at_depth [lpar; SYSPLEX cfg] (jobq s) (transaction_calls cfg lpar s service g).
Proof.
  intros cur Hc. unfold transaction_calls. simpl.
  split; [|exact Hc]. split; [|split; exact Logic.I].
  exists lpar, (SYSPLEX cfg), service, g, (jobq s).
  split; [reflexivity|]. split; [exact Hc|].
  split; [apply lognormvariate_pos | reflexivity].
Qed.

(** The gauges of an LPAR set the depth its transactions are sampled at. *)
Lemma tracked_block (cfg : config) (lpar : string) (s : LparState) (mips uptime : Q)
    (rest : list Emit) :
  0 <= jobq s -> jobq s <= 200 ->
  at_depth [lpar; SYSPLEX cfg] (jobq s) rest ->
  tracked (gauges cfg lpar s mips uptime ++ rest).
Proof.
  intros H0 H1 Hrest cur. apply depth_ok_app. split.
  - unfold gauges. cbn [depth_ok]. unfold sampled_at. cbn [e_op e_metric]. tauto.
  - apply Hrest. unfold gauges, track. cbn [fold_left e_op e_metric e_labels].
    rewrite bool_decide_eq_true_2 by reflexivity. reflexivity.
Qed.

(** In calls that are in order, every latency is within 1.5 times a
    draw, when the depths set before are in [0, 200]. *)
Lemma depth_ok_within (evs : list Emit) :
  forall cur,
    (forall labels d, cur labels = Some d -> 0 <= d /\ d <= 200) ->
    depth_ok cur evs -> Forall latency_within evs.
Proof.
  induction evs as [|e evs IH]; intros cur Hcur Hok; [constructor|].
  destruct Hok as [He Hrest]. constructor.
  - unfold sampled_at in He. unfold latency_within.
    destruct (e_op e) as [v|v|]; try exact Logic.I.
    destruct He as (lpar & x & service & g & d & _ & Hd & Hpos & ->).
    destruct (Hcur _ _ Hd) as [H0 H1].
    eexists. split; [exact Hpos|]. unfold pressure.
    set (lat := fst (lognormvariate _ _ g)) in *. clearbody lat.
    assert (Hq0 : 0 <= d / 400) by (apply Qle_shift_div_l; lra).
    assert (Hq1 : d / 400 <= 0.5) by (apply Qle_shift_div_r; lra).
    set (q := d / 400) in *. clearbody q.
    split; nra.
  - apply (IH (track cur e)); [|exact Hrest].
    intros labels d. unfold track. unfold sampled_at in He.
    destruct (e_metric e), (e_op e) as [v|v|]; try apply Hcur.
    destruct (bool_decide (labels = e_labels e)); [|apply Hcur].
    intros [= <-]. exact He.
Qed.

Section Programs.

Context {L : InterpLaws G}.

Lemma adds_sample_service_at (cfg : config) (lpar : string) (s : LparState)
    (service : string) :
  adds (at_depth [lpar; SYSPLEX cfg] (jobq s)) (sample_service (G := G) cfg lpar s service).
Proof.
  unfold sample_service.
  apply (adds_bind _ (at_depth_app _ _)); [apply (adds_draw _ (at_depth_nil _ _)) | intro u].
  apply (adds_for_range _ (at_depth_nil _ _) (at_depth_app _ _)).
  apply emits_adds. intro w.
  eapply emits_conseq; [apply transaction_emits|].
  intros _ evs ->. apply at_depth_transaction.
Qed.

Lemma adds_after_gauges (cfg : config) (lpar : string) (s : LparState)
    (state : gmap string LparState) :
  In lpar (LPARS cfg) ->
  adds (at_depth [lpar; SYSPLEX cfg] (jobq s))
    (address_spaces (G := G) cfg lpar s ;;;
     for_each SERVICES (sample_service cfg lpar s) ;;;
     ret (<[lpar := s]> state)).
Proof.
  intro Hl.
  apply (adds_bind _ (at_depth_app _ _)).
  - apply (adds_address_spaces _ cfg (at_depth_nil _ _) (at_depth_app _ _)).
    + intros lp addr v _ _ _ _. apply at_depth_gauge. discriminate.
    + intros lp addr v _ _. apply at_depth_gauge. discriminate.
    + exact Hl.
  - intros _.
    apply (adds_bind _ (at_depth_app _ _));
      [|intros _; apply (adds_ret _ (at_depth_nil _ _))].
    apply (adds_for_each _ (at_depth_nil _ _) (at_depth_app _ _)).
    intros service _. apply adds_sample_service_at.
Qed.

Lemma adds_tick_lpar_tracked (cfg : config) (uptime : Q) (lpar : string)
    (state : gmap string LparState) :
  In lpar (LPARS cfg) ->
  adds tracked (tick_lpar (G := G) cfg uptime lpar state).
Proof.
  intro Hl. unfold tick_lpar.
  apply (adds_bind _ tracked_app); [apply (adds_getitem _ tracked_nil) | intro s].
  apply (adds_bind_with _ (fun sm => walk_bounds (fst sm)));
    [intro w; apply walk_fixed_bounds|].
  intros sm (_ & _ & _ & (H0 & H1) & _) w.
  unfold bind at 1.
  pose proof (publish_post cfg lpar (fst sm) (snd sm) uptime w) as Hp.
  unfold returns, post in Hp.
  destruct (publish cfg lpar (fst sm) (snd sm) uptime w) as [[u|e] w1];
    [|contradiction].
  destruct Hp as [_ Hs1].
  destruct (adds_after_gauges cfg lpar (fst sm) state Hl w1) as (rest & Hs2 & Hrest).
  exists (gauges cfg lpar (fst sm) (snd sm) uptime ++ rest).
  split.
  - rewrite Hs2, Hs1, <- app_assoc. reflexivity.
  - apply tracked_block; assumption.
Qed.

Lemma adds_run_tracked (cfg : config) (n : nat) :
  adds tracked (simulate_loop (G := G) cfg n).
Proof.
  unfold simulate_loop.
  apply (adds_bind _ tracked_app); [apply (adds_now _ tracked_nil) | intro started].
  apply (adds_bind _ tracked_app);
    [apply (adds_init_state _ tracked_nil tracked_app) | intro state].
  apply (adds_bind _ tracked_app).
  { apply (adds_for_each _ tracked_nil tracked_app). intros lpar _.
    apply (adds_bind _ tracked_app); [apply (adds_getitem _ tracked_nil) | intro s].
    unfold gauge_set. apply adds_emit. apply tracked_gauge. discriminate. }
  intros _. revert state.
  induction n as [|k IH]; intro state; simpl.
  { apply (adds_ret _ tracked_nil). }
  apply (adds_bind _ tracked_app); [|intro state'; apply IH].
  unfold tick.
  apply (adds_bind _ tracked_app); [apply (adds_now _ tracked_nil) | intro t].
  apply (adds_bind _ tracked_app).
  - unfold tick_lpars. apply (adds_fold_each _ tracked_nil tracked_app).
    intros lpar acc Hl. apply adds_tick_lpar_tracked. exact Hl.
  - intro state'.
    apply (adds_bind _ tracked_app);
      [apply (adds_sleep _ tracked_nil) | intros _; apply (adds_ret _ tracked_nil)].
Qed.

End Programs.

End Depth.

Section Sampled.

Context {G : Type} {I : Interp G} {L : InterpLaws G}.

Lemma services_pressed (cfg : config) (lpar : string) (s : LparState) (w : World G) :
  emits (for_each SERVICES (sample_service cfg lpar s)) w
    (fun _ evs => Forall (pressed_by cfg lpar (jobq s)) evs).
Proof.
  eapply emits_conseq.
  - apply (for_each_emits SERVICES (sample_service cfg lpar s)
             (fun _ evs => Forall (pressed_by cfg lpar (jobq s)) evs)).
    intros service w1 Hsv.
    eapply emits_conseq; [apply sample_service_emits|].
    intros _ evs (evss & -> & _ & Hf). apply Forall_concat_of.
    eapply Forall_impl; [exact Hf|]. intros evs1 [g ->].
    unfold transaction_calls. constructor; [|repeat constructor].
    unfold pressed_by. cbn [e_op e_labels].
    exists service, g. split; [exact Hsv|]. split; [reflexivity|].
    split; [apply lognormvariate_pos | reflexivity].
  - intros _ evs (evss & -> & Hf). apply Forall_concat_of.
    apply (Forall2_right _ _ _ _ Hf). intros x y _ Hy. exact Hy.
Qed.

(** The walk leaves the depth in [0, 200], and at 200 when it was 203 or
    more. *)
Lemma walk_depth (s : LparState) (w : World G) :
  returns (walk s) w
    (fun sm w' =>
       w_sink w' = w_sink w /\
       0 <= jobq (fst sm) /\ jobq (fst sm) <= 200 /\
       (203 <= jobq s -> jobq (fst sm) = 200)).
Proof.
  assert (Hdeep : returns (walk s) w
                    (fun sm _ => 203 <= jobq s -> jobq (fst sm) = 200)).
  { unfold returns, walk.
    apply post_bind; apply post_draw. apply post_bind; apply post_draw.
    apply post_bind; apply post_draw.
    apply post_bind; apply post_draw.
    match goal with
    | |- context [uniform (-3) 3 ?g] =>
        pose proof (uniform_range (-3) 3 g ltac:(lra)) as [Hu0 Hu1];
        destruct (uniform (-3) 3 g) as [u g']; cbn [fst snd] in *
    end.
    repeat py_step.
    unfold set_mem_used, set_cfq, set_jobq, set_iops, set_ziip, set_cpu.
    cbn [fst jobq]. intro Hd.
    unfold clamp.
    destruct (py_min_cases 200 (jobq s + u)) as [[Hlt _] | [_ ->]]; [lra|].
    reflexivity. }
  eapply post_conseq;
    [ apply (returns_and _ _ _ _ (walk_fixed_bounds s w) Hdeep) | | auto ].
  intros sm w' ((Hs & _ & _ & _ & (H0 & H1) & _) & Hd). cbn beta in *.
  split; [exact Hs|]. split; [exact H0|]. split; [exact H1 | exact Hd].
Qed.

(** The body of the loop over the LPARs: the gauges of the walked record,
    then calls among which every latency is sampled at the depth of that
    record. *)
Lemma tick_lpar_sampled (cfg : config) (uptime : Q) (lpar : string)
    (state : gmap string LparState) (s : LparState) (w : World G) :
  state !! lpar = Some s ->
  returns (tick_lpar cfg uptime lpar state) w
    (fun state' w' => exists s' mips rest,
         state' !! lpar = Some s' /\
         0 <= jobq s' /\ jobq s' <= 200 /\
         (203 <= jobq s -> jobq s' = 200) /\
         w_sink w' = w_sink w ++ gauges cfg lpar s' mips uptime ++ rest /\
         Forall (pressed_by cfg lpar (jobq s')) rest).
Proof.
  intro Hs. unfold returns, tick_lpar.
  apply post_bind. apply (getitem_post state lpar s); [exact Hs|].
  apply post_bind.
  eapply post_conseq; [apply walk_depth | | auto].
  intros [s' mips] w1 (Hs1 & H0 & H1 & Hd). cbn [fst snd] in *.
  apply post_bind.
  eapply post_conseq; [apply publish_post | | auto].
  intros u2 w2 (_ & Hs2). cbn beta in Hs2.
  apply post_bind.
  eapply post_conseq; [apply address_spaces_emits | | auto].
  intros u3 w3 (evs3 & Hs3 & _ & Hno3 & _). cbn beta in Hs3.
  apply post_bind.
  eapply post_conseq; [apply (services_pressed cfg lpar s' w3) | | auto].
  intros u4 w4 (evs4 & Hs4 & Hp4). cbn beta in Hs4.
  apply post_ret.
  exists s', mips, (evs3 ++ evs4).
  split; [apply lookup_insert_eq|].
  split; [exact H0|]. split; [exact H1|]. split; [exact Hd|].
  split.
  { rewrite Hs4, Hs3, Hs2, Hs1. unfold gauges. repeat rewrite <- app_assoc. reflexivity. }
  apply Forall_app. split; [|exact Hp4].
  eapply Forall_impl; [exact Hno3|].
  intros e He. unfold is_observe in He. unfold pressed_by.
  destruct (e_op e); [exact Logic.I | discriminate | exact Logic.I].
Qed.

End Sampled.

Lemma pressure_at_bound (lat : Q) :
  pressure lat 200 == 1.5 * lat /\ (0 < lat -> ~ pressure lat 200 == 2 * pressure lat 0).
Proof.
  assert (H2 : pressure lat 200 == 1.5 * lat) by (unfold pressure; field).
  assert (H0 : pressure lat 0 == lat) by (unfold pressure; field).
  split; [exact H2|]. intros Hpos Heq. rewrite H2, H0 in Heq. lra.
Qed.

(** * The claims *)

(** C1: after the loop over the LPARs of any tick, every configured LPAR has
    each bounded scalar within its declared closed interval (cpu and ziip in
    [0, 100], iops in [0, 8000], job queue depth in [0, 200], coupling
    facility queue depth in [0, 80], memory used in [0.30, 0.97] of the
    total) whenever the scalars were within them before the tick; and from
    start-up, with a non-negative interval, the run returns after any number
    of ticks in a state where this holds. *)
Theorem C1_bounded_scalars {G : Type} {I : Interp G} {L : InterpLaws G} (cfg : config) :
  (forall uptime state (w : World G),
      covers cfg state -> every in_bounds state ->
      returns (tick_lpars cfg uptime state) w
        (fun state' _ => covers cfg state' /\ every in_bounds state')) /\
  (forall n seedv clock,
      0 <= INTERVAL cfg ->
      returns (simulate_loop cfg n) (boot seedv clock)
        (fun state _ => covers cfg state /\ every in_bounds state)).
Proof.
  split.
  - intros uptime state w Hcov Hb.
    eapply post_conseq; [apply tick_lpars_post; exact Hcov | | auto].
    intros st w' (Hf & Hb' & _).
    split; [exact (same_fixed_covers cfg _ _ Hf Hcov) | exact (Hb' Hb)].
  - intros n seedv clock Hi.
    eapply post_conseq; [apply simulate_loop_post | | ].
    + intros st w' (_ & Hcov & Hb & _). split; assumption.
    + intros e w' (_ & Hneg & _). lra.
Qed.

Lemma C1_bounded_scalars_witness :
  returns (tick_lpars demo_cfg 5 demo_state) (boot 42 (steady_clock 5))
    (fun state' _ => covers demo_cfg state' /\ every in_bounds state') /\
  returns (simulate_loop demo_cfg 3) (boot 42 (steady_clock 5))
    (fun state _ => covers demo_cfg state /\ every in_bounds state).
Proof.
  destruct (C1_bounded_scalars (G := Z) demo_cfg) as [Htick Hrun]. split.
  - apply Htick; [exact demo_state_covers | exact demo_state_in_bounds].
  - apply Hrun. q_decide.
Defined.

(** C2 (as amended): under a fixed seed and a fixed configuration, two runs
    of N ticks end alike (same result, same generator state) and make the
    same sequence of calls on every metric but the uptime gauge, whatever
    the wall-clock readings of either run. *)
Theorem C2_same_seed_same_values {G : Type} {I : Interp G} (cfg : config)
    (seedv : Z) (n : nat) (clock1 clock2 : nat -> Q) :
  fst (main cfg seedv clock1 n) = fst (main cfg seedv clock2 n) /\
  w_rng (snd (main cfg seedv clock1 n)) = w_rng (snd (main cfg seedv clock2 n)) /\
  List.filter timeless (w_sink (snd (main cfg seedv clock1 n))) =
  List.filter timeless (w_sink (snd (main cfg seedv clock2 n))).
Proof.
  unfold main.
  destruct (agree_simulate_loop cfg n (boot seedv clock1) (boot seedv clock2))
    as [Hr [Hg Hs]].
  - split; reflexivity.
  - split; [exact Hr|]. split; [exact Hg | exact Hs].
Qed.

(** C2, the claim as stated fails: with seed 42 and the default
    configuration, a run under a clock that advances one second per reading
    sets the uptime gauge to 1 in its first tick, a run under a clock that
    advances two seconds sets it to 2; the sequences of emitted values
    differ. *)
Lemma C2_uptime_counterexample :
  uptimes (w_sink (snd (main (G := Z) demo_cfg 42 (steady_clock 1) 1))) = [GaugeSet 1] /\
  uptimes (w_sink (snd (main (G := Z) demo_cfg 42 (steady_clock 2) 1))) = [GaugeSet 2] /\
  w_sink (snd (main (G := Z) demo_cfg 42 (steady_clock 1) 1)) <>
  w_sink (snd (main (G := Z) demo_cfg 42 (steady_clock 2) 1)).
Proof.
  assert (H1 : uptimes (w_sink (snd (main (G := Z) demo_cfg 42 (steady_clock 1) 1)))
               = [GaugeSet 1]) by (vm_compute; reflexivity).
  assert (H2 : uptimes (w_sink (snd (main (G := Z) demo_cfg 42 (steady_clock 2) 1)))
               = [GaugeSet 2]) by (vm_compute; reflexivity).
  split; [exact H1|]. split; [exact H2|].
  intro Heq. rewrite Heq, H2 in H1. discriminate H1.
Qed.







(** C5 (as amended): when the bounds have collapsed, lo > hi, clamp does not
    fail; it returns lo. *)
Theorem C5_clamp_collapsed_bounds (value lo hi : Q) :
  hi < lo -> clamp value lo hi = lo.
Proof. apply clamp_collapsed. Qed.

Lemma C5_clamp_collapsed_bounds_witness : 0 < 10 /\ clamp 5 10 0 = 10.
Proof.
  split; [q_decide | apply (C5_clamp_collapsed_bounds 5 10 0); q_decide].
Defined.

(** C5, the claim as stated fails: clamp(5, 10, 0), whose bounds have
    collapsed, returns 10; and the walk of a record whose total is negative,
    so that its memory interval is empty, returns with the memory used set
    to the lower bound, 0.30 times the total. *)
Lemma C5_clamp_counterexample :
  0 < 10 /\
  clamp 5 10 0 = 10 /\
  inject_Z (mem_total collapsed_lpar) * 0.97 < inject_Z (mem_total collapsed_lpar) * 0.30 /\
  match fst (walk (G := Z) collapsed_lpar (boot 42 (steady_clock 5))) with
  | Ok (s, _) => mem_used s = inject_Z (mem_total collapsed_lpar) * 0.30
  | Raise _ => False
  end.
Proof. repeat split; vm_compute; reflexivity. Qed.

(** C6 (as amended): every latency observation is the log-normal draw of
    the service's (mu, sigma), which is strictly positive, times
    1 + d / 400, where d is the job queue depth of the LPAR after the walk
    of the same tick: the depth the JOBQ gauge of the LPAR was last set to,
    which lies in [0, 200].  So every observation a run emits is strictly
    positive and at most 1.5 times its draw.  A depth of 400 is never
    sampled: a record whose depth is 203 or more is walked to the depth 200,
    where the observation is 1.5 times the draw, not 2.0 times. *)
Theorem C6_latency_observations {G : Type} {I : Interp G} {L : InterpLaws G}
    (cfg : config) (lpar service : string) :
  (forall s (w : World G),
      emits (transaction cfg lpar s service) w
        (fun _ evs => exists lat,
             lat = fst (lognormvariate (fst (latency_profile service))
                                       (snd (latency_profile service)) (w_rng w)) /\
             0 < lat /\
             evs = [mkEmit TXN_LAT [lpar; SYSPLEX cfg; service]
                      (Observe (lat * (1 + jobq s / 400)));
                    mkEmit TXN_TOTAL [lpar; SYSPLEX cfg; service] Inc])) /\
  (forall uptime state s (w : World G),
      state !! lpar = Some s ->
      returns (tick_lpar cfg uptime lpar state) w
        (fun state' w' => exists s' mips rest,
             state' !! lpar = Some s' /\
             0 <= jobq s' /\ jobq s' <= 200 /\
             (203 <= jobq s -> jobq s' = 200) /\
             w_sink w' = w_sink w ++ gauges cfg lpar s' mips uptime ++ rest /\
             Forall (pressed_by cfg lpar (jobq s')) rest)) /\
  (forall n seedv clock,
      depth_ok (G := G) (fun _ => None) (w_sink (snd (main cfg seedv clock n))) /\
      Forall latency_within (w_sink (snd (main (G := G) cfg seedv clock n))) /\
      Forall latency_ok (w_sink (snd (main (G := G) cfg seedv clock n)))) /\
  (forall lat,
      pressure lat 200 == 1.5 * lat /\
      (0 < lat -> ~ pressure lat 200 == 2 * pressure lat 0)) /\
  (latency_profile "CICS" = (-3.2, 0.55) /\
   latency_profile "DB2" = (-2.8, 0.60) /\
   latency_profile "IMS" = (-3.0, 0.55) /\
   latency_profile "MQ" = (-3.4, 0.50)).
Proof.
  split; [|split; [|split; [|split]]].
  - intros s w. eapply emits_conseq; [apply transaction_emits|].
    intros _ evs ->. eexists. split; [reflexivity|].
    split; [apply lognormvariate_pos | reflexivity].
  - intros uptime state s w Hs. apply tick_lpar_sampled. exact Hs.
  - intros n seedv clock. unfold main.
    destruct (adds_run_tracked cfg n (boot seedv clock)) as (evs & Hs & Ht).
    cbn [boot w_sink app] in Hs. rewrite Hs.
    assert (Hw : Forall latency_within evs).
    { apply (depth_ok_within evs (fun _ => None)); [discriminate | apply Ht]. }
    split; [apply Ht|]. split; [exact Hw|].
    eapply Forall_impl; [exact Hw|].
    intros e He. unfold latency_within in He. unfold latency_ok.
    destruct (e_op e) as [v|v|]; try exact Logic.I.
    destruct He as (lat & Hpos & Hle & _). lra.
  - apply pressure_at_bound.
  - repeat split; reflexivity.
Qed.

Lemma C6_latency_observations_witness :
  emits (transaction (G := Z) demo_cfg "LPAR1" demo_lpar "CICS") (boot 42 (steady_clock 5))
    (fun _ evs => exists lat,
         lat = fst (lognormvariate (fst (latency_profile "CICS"))
                                   (snd (latency_profile "CICS"))
                                   (w_rng (boot (G := Z) 42 (steady_clock 5)))) /\
         0 < lat /\
         evs = [mkEmit TXN_LAT ["LPAR1"; SYSPLEX demo_cfg; "CICS"]
                  (Observe (lat * (1 + jobq demo_lpar / 400)));
                mkEmit TXN_TOTAL ["LPAR1"; SYSPLEX demo_cfg; "CICS"] Inc]) /\
  returns (tick_lpar (G := Z) demo_cfg 5 "LPAR1" {["LPAR1" := deep_lpar]}) (boot 42 (steady_clock 5))
    (fun state' w' => exists s' mips rest,
         state' !! "LPAR1" = Some s' /\
         0 <= jobq s' /\ jobq s' <= 200 /\
         (203 <= jobq deep_lpar -> jobq s' = 200) /\
         w_sink w' = w_sink (boot (G := Z) 42 (steady_clock 5)) ++
                     gauges demo_cfg "LPAR1" s' mips 5 ++ rest /\
         Forall (pressed_by (G := Z) demo_cfg "LPAR1" (jobq s')) rest) /\
  depth_ok (G := Z) (fun _ => None) (w_sink (snd (main (G := Z) demo_cfg 42 (steady_clock 5) 2))) /\
  Forall latency_within (w_sink (snd (main (G := Z) demo_cfg 42 (steady_clock 5) 2))) /\
  Forall latency_ok (w_sink (snd (main (G := Z) demo_cfg 42 (steady_clock 5) 2))).
Proof.
  destruct (C6_latency_observations (G := Z) demo_cfg "LPAR1" "CICS")
    as (Hone & Htick & Hall & _).
  split; [apply Hone|]. split; [apply Htick; apply lookup_singleton_eq|].
  apply Hall.
Defined.

(** C6, the claim as stated fails: a depth of 400 is above the bound of the
    job queue.  With seed 44, from a record forced to the depth 400 the tick
    sets the JOBQ gauge to 200, from a record forced to the depth 0 it sets
    it to 0, and each of the 515 latencies observed in the first is 1.5
    times the latency observed in the second, not 2.0 times. *)
Lemma C6_depth_counterexample :
  jobq deep_lpar = 400 /\
  jobq idle_lpar = 0 /\
  In (mkEmit JOBQ ["LPAR1"; "PLEX1"] (GaugeSet 200))
     (w_sink (snd (tick_lpar (G := Z) demo_cfg 5 "LPAR1" {["LPAR1" := deep_lpar]}
                     (boot 44 (steady_clock 5))))) /\
  In (mkEmit JOBQ ["LPAR1"; "PLEX1"] (GaugeSet 0))
     (w_sink (snd (tick_lpar (G := Z) demo_cfg 5 "LPAR1" {["LPAR1" := idle_lpar]}
                     (boot 44 (steady_clock 5))))) /\
  length (latencies
     (w_sink (snd (tick_lpar (G := Z) demo_cfg 5 "LPAR1" {["LPAR1" := deep_lpar]}
                     (boot 44 (steady_clock 5)))))) = 515%nat /\
  List.map Qred (latencies
     (w_sink (snd (tick_lpar (G := Z) demo_cfg 5 "LPAR1" {["LPAR1" := deep_lpar]}
                     (boot 44 (steady_clock 5)))))) =
  List.map (fun v => Qred (1.5 * v)) (latencies
     (w_sink (snd (tick_lpar (G := Z) demo_cfg 5 "LPAR1" {["LPAR1" := idle_lpar]}
                     (boot 44 (steady_clock 5)))))) /\
  List.map Qred (latencies
     (w_sink (snd (tick_lpar (G := Z) demo_cfg 5 "LPAR1" {["LPAR1" := deep_lpar]}
                     (boot 44 (steady_clock 5)))))) <>
  List.map (fun v => Qred (2 * v)) (latencies
     (w_sink (snd (tick_lpar (G := Z) demo_cfg 5 "LPAR1" {["LPAR1" := idle_lpar]}
                     (boot 44 (steady_clock 5)))))).
Proof.
  split; [reflexivity|]. split; [reflexivity|].
  split; [vm_compute; tauto|].
  split; [vm_compute; tauto|].
  split; [vm_compute; reflexivity|].
  split; [vm_compute; reflexivity|].
  vm_compute. discriminate.
Qed.

(** C7: initialisation gives every configured LPAR a record whose fields are
    draws: the memory total is the choice among 32, 48, 64, 96, 128 GiB, the
    memory used is the total times a draw of uniform(0.45, 0.75), the MIPS
    capacity is the choice among 8000, 10000, 12000, 16000, and cpu, ziip,
    iops, job queue depth and coupling-facility queue depth are draws of
    uniform(10, 70), uniform(5, 60), uniform(500, 3500), uniform(0, 40) and
    uniform(1, 20), each within its range.  The draws of the LPAR at
    position k of the list start from the generator state left by the
    records before it, a name listed twice keeps the record of its last
    position, and the generator is left after eight draws per entry. *)
Theorem C7_init_state_ranges {G : Type} {I : Interp G} {L : InterpLaws G}
    (lpars : list string) (w : World G) :
  returns (init_state lpars) w
    (fun state w' =>
       (forall lpar, In lpar lpars ->
          exists s k,
            state !! lpar = Some s /\
            init_ranges s /\
            lpars !! k = Some lpar /\
            (forall j, (k < j)%nat -> lpars !! j <> Some lpar) /\
            drawn_from (skip_lpars k (w_rng w)) s) /\
       w_rng w' = skip_lpars (length lpars) (w_rng w)).
Proof.
  eapply post_conseq;
    [ apply (returns_and _ _ _ _ (init_state_post lpars w)
               (init_state_drawn_from lpars ∅ w))
    | | auto ].
  intros st w' ((_ & Hall & _) & Hin & _ & Hg). cbn beta in *.
  split; [|exact Hg].
  intros lpar Hl. destruct (Hin lpar Hl) as (s & k & Hs & Hk & Hlast & Hd).
  exists s, k. split; [exact Hs|]. split; [exact (Hall lpar s Hs)|].
  split; [exact Hk|]. split; [exact Hlast | exact Hd].
Qed.

Lemma C7_init_state_ranges_witness :
  returns (init_state (G := Z) ["LPAR1"; "LPAR2"]) (boot 42 (steady_clock 5))
    (fun state w' =>
       (forall lpar, In lpar ["LPAR1"; "LPAR2"] ->
          exists s k,
            state !! lpar = Some s /\
            init_ranges s /\
            ["LPAR1"; "LPAR2"] !! k = Some lpar /\
            (forall j, (k < j)%nat -> ["LPAR1"; "LPAR2"] !! j <> Some lpar) /\
            drawn_from (skip_lpars k (w_rng (boot (G := Z) 42 (steady_clock 5)))) s) /\
       w_rng w' = skip_lpars 2 (w_rng (boot (G := Z) 42 (steady_clock 5)))).
Proof.
  exact (C7_init_state_ranges (G := Z) ["LPAR1"; "LPAR2"] (boot 42 (steady_clock 5))).
Defined.


(** C9: the loop over the LPARs of a tick returns a state with the same
    LPARs, each with the memory total and the MIPS capacity it had; so do
    any number of iterations of the driver's loop, which can only stop on
    the ValueError of a negative sleep. *)
Theorem C9_fixed_parameters_unchanged {G : Type} {I : Interp G} (cfg : config) :
  (forall uptime state (w : World G),
      covers cfg state ->
      returns (tick_lpars cfg uptime state) w (fun state' _ => same_fixed state state')) /\
  (forall started n state (w : World G),
      covers cfg state ->
      post (run_ticks cfg started n state) w
        (fun state' _ => same_fixed state state')
        (fun e _ => e = ValueError /\ INTERVAL cfg < 0)).
Proof.
  split.
  - intros uptime state w Hcov.
    eapply post_conseq; [apply tick_lpars_post; exact Hcov | | auto].
    intros st w' (Hf & _). exact Hf.
  - intros started n state w Hcov.
    eapply post_conseq; [apply run_ticks_post; exact Hcov | | ].
    + intros st w' (_ & Hf & _). exact Hf.
    + intros e w' (He & Hneg & _). split; assumption.
Qed.

Lemma C9_fixed_parameters_unchanged_witness :
  returns (tick_lpars (G := Z) demo_cfg 5 demo_state) (boot 42 (steady_clock 5))
    (fun state' _ => same_fixed demo_state state') /\
  post (run_ticks (G := Z) demo_cfg 0 3 demo_state) (boot 42 (steady_clock 5))
    (fun state' _ => same_fixed demo_state state')
    (fun e _ => e = ValueError /\ INTERVAL demo_cfg < 0).
Proof.
  destruct (C9_fixed_parameters_unchanged (G := Z) demo_cfg) as [Htick Hrun]. split.
  - apply Htick. exact demo_state_covers.
  - apply Hrun. exact demo_state_covers.
Defined.

(** C10: the divisor of the address-space shares, the sum of the weights or
    1.0 when that sum is zero, is never zero; the loop over the address
    spaces never raises, and it sets ten address-space CPU gauges, each to a
    value in [0, 100], whatever the cpu percentage. *)
Theorem C10_address_space_shares {G : Type} {I : Interp G} (cfg : config)
    (lpar : string) (s : LparState) (w : World G) :
  (forall weights, ~ py_or (py_sum weights) 1 == 0) /\
  emits (address_spaces cfg lpar s) w
    (fun _ evs => Forall share_ok evs /\
                  length (List.filter is_as_cpu evs) = 10%nat).
Proof.
  split.
  - intro weights. apply py_or_nonzero.
  - eapply emits_conseq; [apply address_spaces_emits|].
    intros _ evs (Hsh & _ & Hn). split; [exact Hsh | exact Hn].
Qed.

(** * Further properties *)

(** ** [clamp] *)

Lemma clamp_cases (value lo hi : Q) :
  (value < hi /\ lo < value /\ clamp value lo hi = value) \/
  (value < hi /\ value <= lo /\ clamp value lo hi = lo) \/
  (hi <= value /\ lo < hi /\ clamp value lo hi = hi) \/
  (hi <= value /\ hi <= lo /\ clamp value lo hi = lo).
Proof.
  unfold clamp.
  destruct (py_min_cases hi value) as [[H1 E1] | [H1 E1]]; rewrite E1.
  - destruct (py_max_cases lo value) as [[H2 E2] | [H2 E2]]; rewrite E2.
    + left. auto.
    + right. left. auto.
  - destruct (py_max_cases lo hi) as [[H2 E2] | [H2 E2]]; rewrite E2.
    + right. right. left. auto.
    + right. right. right. auto.
Qed.

(** X1: inside its bounds a value is left as it is; below them it becomes
    the lower bound, above them the upper bound. *)
Theorem X1_clamp_inside_and_saturation (value lo hi : Q) :
  lo <= hi ->
  (lo <= value -> value <= hi -> clamp value lo hi == value) /\
  (value <= lo -> clamp value lo hi == lo) /\
  (hi <= value -> clamp value lo hi == hi).
Proof.
  intro Hb. unfold clamp.
  destruct (py_min_cases hi value) as [[H1 E1] | [H1 E1]]; rewrite E1.
  - destruct (py_max_cases lo value) as [[H2 E2] | [H2 E2]]; rewrite E2;
      repeat split; intros; lra.
  - destruct (py_max_cases lo hi) as [[H2 E2] | [H2 E2]]; rewrite E2;
      repeat split; intros; lra.
Qed.

Lemma X1_clamp_inside_and_saturation_witness :
  0 <= 100 /\
  (0 <= 42 -> 42 <= 100 -> clamp 42 0 100 == 42) /\
  (42 <= 0 -> clamp 42 0 100 == 0) /\
  (100 <= 42 -> clamp 42 0 100 == 100).
Proof.
  split; [q_decide | apply (X1_clamp_inside_and_saturation 42 0 100); q_decide].
Defined.

(** X2: clamping twice is clamping once, and clamping keeps the order of the
    values, whatever the bounds. *)
Theorem X2_clamp_idempotent_monotone (lo hi : Q) :
  (forall value, clamp (clamp value lo hi) lo hi == clamp value lo hi) /\
  (forall v1 v2, v1 <= v2 -> clamp v1 lo hi <= clamp v2 lo hi).
Proof.
  split.
  - intro value.
    destruct (clamp_cases value lo hi)
      as [(H1 & H2 & E) | [(H1 & H2 & E) | [(H1 & H2 & E) | (H1 & H2 & E)]]];
      rewrite E;
      match goal with
      | |- clamp ?x lo hi == _ =>
          destruct (clamp_cases x lo hi)
            as [(H3 & H4 & E') | [(H3 & H4 & E') | [(H3 & H4 & E') | (H3 & H4 & E')]]];
          rewrite E'; lra
      end.
  - intros v1 v2 Hv.
    destruct (clamp_cases v1 lo hi)
      as [(H1 & H2 & E) | [(H1 & H2 & E) | [(H1 & H2 & E) | (H1 & H2 & E)]]];
      rewrite E;
      destruct (clamp_cases v2 lo hi)
        as [(H3 & H4 & E') | [(H3 & H4 & E') | [(H3 & H4 & E') | (H3 & H4 & E')]]];
      rewrite E'; lra.
Qed.

Lemma clamp_between (value lo hi x a b : Q) :
  lo <= x -> x <= hi -> a <= x -> x <= b -> a <= value -> value <= b ->
  a <= clamp value lo hi /\ clamp value lo hi <= b.
Proof.
  intros Hlx Hxh Hax Hxb Hav Hvb. unfold clamp.
  destruct (py_min_cases hi value) as [[H1 E1] | [H1 E1]]; rewrite E1.
  - destruct (py_max_cases lo value) as [[H2 E2] | [H2 E2]]; rewrite E2; split; lra.
  - destruct (py_max_cases lo hi) as [[H2 E2] | [H2 E2]]; rewrite E2; split; lra.
Qed.

(** ** [env_list] *)

Lemma split_comma_nonempty (s : string) : split_comma s <> [].
Proof.
  destruct s as [|c rest]; simpl; [discriminate|].
  destruct (Ascii.eqb c (Ascii.ascii_of_nat 44)); [discriminate|].
  destruct (split_comma rest); discriminate.
Qed.

Lemma join_comma_cons (c : Ascii.ascii) (piece : string) (pieces : list string) :
  join_comma (String c piece :: pieces) = String c (join_comma (piece :: pieces)).
Proof. destruct pieces; reflexivity. Qed.

(** Splitting at the commas loses nothing: joining the pieces with
    commas gives the string back. *)
Lemma split_comma_join (s : string) : join_comma (split_comma s) = s.
Proof.
  induction s as [|c rest IH]; [reflexivity|]. simpl.
  destruct (Ascii.eqb c (Ascii.ascii_of_nat 44)) eqn:Ec.
  - apply Ascii.eqb_eq in Ec. subst c.
    pose proof (split_comma_nonempty rest) as Hne.
    destruct (split_comma rest) as [|p ps]; [contradiction|].
    cbn [join_comma String.append]. cbn [join_comma] in IH.
    rewrite IH. reflexivity.
  - pose proof (split_comma_nonempty rest) as Hne.
    destruct (split_comma rest) as [|p ps]; [contradiction|].
    rewrite join_comma_cons, IH. reflexivity.
Qed.

Lemma split_comma_no_comma (s : string) :
  Forall (fun piece => has_comma piece = false) (split_comma s).
Proof.
  induction s as [|c rest IH]; simpl; [repeat constructor|].
  destruct (Ascii.eqb c (Ascii.ascii_of_nat 44)) eqn:Ec.
  - constructor; [reflexivity | exact IH].
  - destruct (split_comma rest) as [|p ps]; [repeat constructor; simpl; rewrite Ec; reflexivity|].
    inversion IH as [|? ? Hp Hps]; subst.
    constructor; [simpl; rewrite Ec, Hp; reflexivity | exact Hps].
Qed.

(** Induction on the length of a string. *)
Lemma string_length_ind (P : string -> Prop) :
  (forall s, (forall t, (String.length t < String.length s)%nat -> P t) -> P s) ->
  forall s, P s.
Proof.
  intros Hstep s.
  assert (H : forall n t, (String.length t < n)%nat -> P t).
  { induction n as [|n IH]; intros t Ht; [lia|].
    apply Hstep. intros t' Ht'. apply IH. lia. }
  apply (H (S (String.length s))). lia.
Qed.

Ltac str_simpl :=
  cbn [cat String.length lstrip rstrip space_len keep has_comma].

Lemma length_cat (p q : string) :
  String.length (cat p q) = (String.length p + String.length q)%nat.
Proof. induction p as [|c p IH]; str_simpl; [reflexivity | rewrite IH; reflexivity]. Qed.

Lemma cat_assoc (p q r : string) :
  cat (cat p q) r = cat p (cat q r).
Proof. induction p as [|c p IH]; str_simpl; [reflexivity | f_equal; exact IH]. Qed.

Lemma cat_empty (p : string) : cat p EmptyString = p.
Proof. induction p as [|c p IH]; str_simpl; [reflexivity | f_equal; exact IH]. Qed.

Lemma has_comma_cat (p q : string) :
  has_comma (cat p q) = has_comma p || has_comma q.
Proof.
  induction p as [|c p IH]; str_simpl; [reflexivity|].
  rewrite IH, orb_assoc. reflexivity.
Qed.

(** The whitespace characters of one, two and three bytes. *)
Lemma ws_char1 (a : Ascii.ascii) :
  space1 a = true -> ws_char (String a EmptyString).
Proof.
  intro H1. split; [discriminate|]. intro x.
  repeat split; str_simpl; rewrite ?H1; try reflexivity.
  destruct x as [|b [|c r]]; reflexivity.
Qed.

Lemma ws_char2 (a b : Ascii.ascii) :
  space1 a = false -> space2 a b = true -> ws_char (String a (String b EmptyString)).
Proof.
  intros H1 H2. split; [discriminate|]. intro x.
  repeat split; str_simpl; rewrite ?H1, ?H2; try reflexivity.
  destruct x as [|c r]; reflexivity.
Qed.

Lemma ws_char3 (a b c : Ascii.ascii) :
  space1 a = false -> space2 a b = false -> space3 a b c = true ->
  ws_char (String a (String b (String c EmptyString))).
Proof.
  intros H1 H2 H3. split; [discriminate|]. intro x.
  repeat split; str_simpl; rewrite ?H1, ?H2, ?H3; reflexivity.
Qed.

(** A string is empty, or starts with a whitespace character, or starts
    with a byte that [lstrip] and [rstrip] keep. *)
Lemma space_cases (s : string) :
  s = EmptyString \/
  (exists pre rest, s = cat pre rest /\ ws_char pre) \/
  (exists a r, s = String a r /\ headed s).
Proof.
  destruct s as [|a r]; [left; reflexivity | right].
  destruct (space1 a) eqn:H1.
  { left. exists (String a EmptyString), r. split; [reflexivity | apply ws_char1, H1]. }
  destruct r as [|b r].
  { right. exists a, EmptyString. split; [reflexivity|]. unfold headed. str_simpl.
    rewrite H1. reflexivity. }
  destruct (space2 a b) eqn:H2.
  { left. exists (String a (String b EmptyString)), r.
    split; [reflexivity | apply ws_char2; assumption]. }
  destruct r as [|c r].
  { right. exists a, (String b EmptyString). split; [reflexivity|]. unfold headed. str_simpl.
    rewrite H1, H2. reflexivity. }
  destruct (space3 a b c) eqn:H3.
  { left. exists (String a (String b (String c EmptyString))), r.
    split; [reflexivity | apply ws_char3; assumption]. }
  right. exists a, (String b (String c r)). split; [reflexivity|]. unfold headed. str_simpl.
  rewrite H1, H2, H3. reflexivity.
Qed.

(** What [lstrip] and [rstrip] do at a byte that is not the start of a
    whitespace character. *)
Lemma plain_head (a : Ascii.ascii) (r : string) :
  headed (String a r) ->
  lstrip (String a r) = String a r /\ rstrip (String a r) = String a (rstrip r).
Proof.
  unfold headed. destruct r as [|b [|c r]]; str_simpl;
    destruct (space1 a); try discriminate;
    try (destruct (space2 a b); try discriminate);
    try (destruct (space3 a b c); try discriminate);
    intros _; split; reflexivity.
Qed.

Lemma lstrip_of_headed (s : string) : headed s -> lstrip s = s.
Proof.
  destruct s as [|a r]; [reflexivity|]. intro H. apply plain_head. exact H.
Qed.

(** A prefix of a string that starts with no whitespace starts with none. *)
Lemma headed_prefix (p q : string) : headed (cat p q) -> headed p.
Proof.
  unfold headed.
  destruct p as [|a [|b [|c p]]]; [reflexivity | | |].
  - destruct q as [|b [|c q]]; str_simpl; destruct (space1 a); try discriminate;
      reflexivity.
  - destruct q as [|c q]; str_simpl; destruct (space1 a); try discriminate;
      destruct (space2 a b); try discriminate; reflexivity.
  - str_simpl. intro H. exact H.
Qed.

Lemma lstrip_headed (s : string) : headed (lstrip s).
Proof.
  induction s as [s IH] using string_length_ind.
  destruct (space_cases s) as [-> | [(pre & rest & -> & Hne & Hpre) | (a & r & -> & Hh)]].
  - reflexivity.
  - destruct (Hpre rest) as (_ & -> & _). apply IH.
    rewrite length_cat. destruct pre; [contradiction | str_simpl; lia].
  - rewrite (lstrip_of_headed _ Hh). exact Hh.
Qed.

(** [lstrip] keeps a suffix and [rstrip] a prefix. *)
Lemma lstrip_suffix (s : string) : exists p, s = cat p (lstrip s).
Proof.
  induction s as [s IH] using string_length_ind.
  destruct (space_cases s) as [-> | [(pre & rest & -> & Hne & Hpre) | (a & r & -> & Hh)]].
  - exists EmptyString. reflexivity.
  - destruct (Hpre rest) as (_ & -> & _).
    destruct (IH rest) as [p Hp].
    { rewrite length_cat. destruct pre; [contradiction | str_simpl; lia]. }
    exists (cat pre p). rewrite cat_assoc, <- Hp. reflexivity.
  - exists EmptyString. rewrite (lstrip_of_headed _ Hh). reflexivity.
Qed.

Lemma rstrip_prefix (s : string) : exists q, s = cat (rstrip s) q.
Proof.
  induction s as [s IH] using string_length_ind.
  destruct (space_cases s) as [-> | [(pre & rest & -> & Hne & Hpre) | (a & r & -> & Hh)]].
  - exists EmptyString. reflexivity.
  - destruct (Hpre rest) as (_ & _ & ->).
    destruct (IH rest) as [q Hq].
    { rewrite length_cat. destruct pre; [contradiction | str_simpl; lia]. }
    unfold keep. destruct (rstrip rest) as [|c kept] eqn:Er.
    + exists (cat pre rest). reflexivity.
    + exists q. rewrite cat_assoc, <- Hq. reflexivity.
  - destruct (plain_head a r Hh) as [_ ->].
    destruct (IH r) as [q Hq]; [str_simpl; lia|].
    exists q. str_simpl. rewrite <- Hq. reflexivity.
Qed.

Lemma rstrip_headed (s : string) : headed s -> headed (rstrip s).
Proof.
  intro Hh. destruct (rstrip_prefix s) as [q Hq].
  apply (headed_prefix _ q). rewrite <- Hq. exact Hh.
Qed.

Lemma rstrip_idempotent (s : string) : rstrip (rstrip s) = rstrip s.
Proof.
  induction s as [s IH] using string_length_ind.
  destruct (space_cases s) as [-> | [(pre & rest & -> & Hne & Hpre) | (a & r & -> & Hh)]].
  - reflexivity.
  - destruct (Hpre rest) as (_ & _ & ->).
    assert (Hr : rstrip (rstrip rest) = rstrip rest).
    { apply IH. rewrite length_cat. destruct pre; [contradiction | str_simpl; lia]. }
    destruct (rstrip rest) as [|c kept] eqn:Er; [reflexivity|].
    cbn [keep]. destruct (Hpre (String c kept)) as (_ & _ & ->). rewrite Hr. reflexivity.
  - destruct (plain_head a r Hh) as [_ Hra]. rewrite Hra.
    assert (Hh' : headed (String a (rstrip r))).
    { rewrite <- Hra. apply rstrip_headed. exact Hh. }
    destruct (plain_head a (rstrip r) Hh') as [_ ->].
    rewrite IH by (str_simpl; lia). reflexivity.
Qed.

Lemma strip_idempotent (s : string) : strip (strip s) = strip s.
Proof.
  unfold strip.
  rewrite (lstrip_of_headed (rstrip (lstrip s)))
    by (apply rstrip_headed, lstrip_headed).
  apply rstrip_idempotent.
Qed.

Lemma lstrip_no_comma (s : string) : has_comma s = false -> has_comma (lstrip s) = false.
Proof.
  intro Hc. destruct (lstrip_suffix s) as [p Hp].
  rewrite Hp, has_comma_cat in Hc. apply orb_false_iff in Hc as [_ Hc]. exact Hc.
Qed.

Lemma rstrip_no_comma (s : string) : has_comma s = false -> has_comma (rstrip s) = false.
Proof.
  intro Hc. destruct (rstrip_prefix s) as [q Hq].
  rewrite Hq, has_comma_cat in Hc. apply orb_false_iff in Hc as [Hc _]. exact Hc.
Qed.

Lemma tokens_good (csv : string) : Forall good_token (tokens csv).
Proof.
  unfold tokens.
  pose proof (split_comma_no_comma csv) as Hno.
  induction Hno as [|piece pieces Hp Hps IH]; simpl; [constructor|].
  destruct (truthy (strip piece)) eqn:Et; [|exact IH].
  constructor; [|exact IH].
  split; [exact Et|]. split; [apply strip_idempotent|].
  unfold strip. apply rstrip_no_comma, lstrip_no_comma. exact Hp.
Qed.

(** Whitespace outside ASCII is stripped too: a name padded with U+00A0 and
    U+2003 is returned bare, and a variable that holds U+00A0 alone gives
    way to the default. *)
Lemma env_list_unicode_padding :
  let nbsp := String (Ascii.ascii_of_nat 194) (String (Ascii.ascii_of_nat 160) EmptyString) in
  let emsp := String (Ascii.ascii_of_nat 226) (String (Ascii.ascii_of_nat 128)
                (String (Ascii.ascii_of_nat 131) EmptyString)) in
  tokens (cat nbsp (cat "LPAR9" (cat emsp (cat "," emsp)))) = ["LPAR9"] /\
  env_list {["MAINFRAME_LPARS" := nbsp]} "MAINFRAME_LPARS" "LPAR1" = ["LPAR1"].
Proof. cbv zeta. split; vm_compute; reflexivity. Qed.

(** X3: every identifier [env_list] returns is a token: it is not empty, has
    no whitespace character, ASCII or not, at either end and holds no comma;
    and the list holds the tokens of the variable when it has any, those of
    the default when it has none or is not set. *)
Theorem X3_env_list_tokens (env : gmap string string) (name default_csv : string) :
  Forall good_token (env_list env name default_csv) /\
  (tokens (getenv env name default_csv) <> [] ->
   env_list env name default_csv = tokens (getenv env name default_csv)) /\
  (tokens (getenv env name default_csv) = [] ->
   env_list env name default_csv = tokens default_csv) /\
  (env !! name = None -> env_list env name default_csv = tokens default_csv).
Proof.
  unfold env_list. split; [|split; [|split]].
  - destruct (tokens (getenv env name default_csv)) as [|p ps] eqn:Ep.
    + apply tokens_good.
    + rewrite <- Ep. apply tokens_good.
  - intro Hne. destruct (tokens (getenv env name default_csv)); [contradiction | reflexivity].
  - intros ->. reflexivity.
  - intro Hnone. unfold getenv. rewrite Hnone.
    destruct (tokens default_csv); reflexivity.
Qed.

(** ** The calls of a run *)

Lemma Forall_app_intro {A} (Q : A -> Prop) (a b : list A) :
  Forall Q a -> Forall Q b -> Forall Q (a ++ b).
Proof. intros Ha Hb. apply Forall_app. split; assumption. Qed.

(** X4: every value a run sets on the CPU, zIIP, I/O, job-queue,
    coupling-facility-queue and address-space CPU gauges lies in the
    interval of its scalar ([0, 100], [0, 100], [0, 8000], [0, 200],
    [0, 80], [0, 100]), for any generator, any configuration, any number of
    ticks and in either outcome of the run. *)
Theorem X4_gauges_in_range {G : Type} {I : Interp G} (cfg : config) (seedv : Z)
    (clock : nat -> Q) (n : nat) :
  Forall gauge_in_range (w_sink (snd (main (G := G) cfg seedv clock n))).
Proof.
  unfold main.
  destruct (adds_simulate_loop (Forall gauge_in_range) cfg
              (Forall_nil_2 _) (Forall_app_intro _)) with (n := n) (w := boot seedv clock)
    as (evs & Hs & Hp).
  - intros lpar v _. repeat constructor.
  - intros lpar s mips uptime _ (Hc & Hz & Hi & Hj & Hf).
    unfold gauges. repeat constructor; unfold gauge_in_range; simpl; tauto.
  - intros lpar addr v _ _ H0 H1. repeat constructor; assumption.
  - intros lpar addr v _ _. repeat constructor.
  - intros lpar service v _ _. repeat constructor.
  - rewrite Hs. exact Hp.
Qed.

(** X5: every call a run makes on the registry is well formed: a gauge is
    set, the histogram observed and the counter incremented, each under the
    labels of its metric, whose values are a configured LPAR, the sysplex
    and, where the metric has one, an address space or a service of the
    fixed catalogues. *)
Theorem X5_calls_well_formed {G : Type} {I : Interp G} (cfg : config) (seedv : Z)
    (clock : nat -> Q) (n : nat) :
  Forall (well_formed_call cfg) (w_sink (snd (main (G := G) cfg seedv clock n))).
Proof.
  unfold main.
  destruct (adds_simulate_loop (Forall (well_formed_call cfg)) cfg
              (Forall_nil_2 _) (Forall_app_intro _)) with (n := n) (w := boot seedv clock)
    as (evs & Hs & Hp).
  - intros lpar v Hl. repeat constructor. exists lpar. split; [exact Hl|].
    simpl. split; [reflexivity | eexists; reflexivity].
  - intros lpar s mips uptime Hl _. unfold gauges.
    repeat constructor; exists lpar; (split; [exact Hl|]); simpl;
      (split; [reflexivity | eexists; reflexivity]).
  - intros lpar addr v Hl Ha _ _. repeat constructor. exists lpar. split; [exact Hl|].
    simpl. split; [exists addr; split; [exact Ha | reflexivity] | eexists; reflexivity].
  - intros lpar addr v Hl Ha. repeat constructor. exists lpar. split; [exact Hl|].
    simpl. split; [exists addr; split; [exact Ha | reflexivity] | eexists; reflexivity].
  - intros lpar service v Hl Hsv.
    repeat constructor; exists lpar; (split; [exact Hl|]); simpl.
    + split; [exists service; split; [exact Hsv | reflexivity] | eexists; reflexivity].
    + split; [exists service; split; [exact Hsv | reflexivity] | reflexivity].
  - rewrite Hs. exact Hp.
Qed.

Lemma balanced_app (a b : list Emit) : balanced a -> balanced b -> balanced (a ++ b).
Proof.
  intros Ha Hb l. unfold observed, counted.
  rewrite !List.filter_app, !length_app.
  specialize (Ha l). specialize (Hb l). unfold observed, counted in Ha, Hb. lia.
Qed.

(** X6: in a run, under every tuple of labels, the histogram has been
    observed as many times as the counter has been incremented, after any
    number of ticks and in either outcome. *)
Theorem X6_observations_match_increments {G : Type} {I : Interp G} (cfg : config)
    (seedv : Z) (clock : nat -> Q) (n : nat) (labels : list string) :
  observed labels (w_sink (snd (main (G := G) cfg seedv clock n))) =
  counted labels (w_sink (snd (main (G := G) cfg seedv clock n))).
Proof.
  unfold main.
  destruct (adds_simulate_loop balanced cfg) with (n := n) (w := boot seedv clock)
    as (evs & Hs & Hp).
  - intro l. reflexivity.
  - exact balanced_app.
  - intros lpar v _ l. reflexivity.
  - intros lpar s mips uptime _ _ l. reflexivity.
  - intros lpar addr v _ _ _ _ l. reflexivity.
  - intros lpar addr v _ _ l. reflexivity.
  - intros lpar service v _ _ l. unfold observed, counted. simpl.
    destruct (bool_decide ([lpar; SYSPLEX cfg; service] = l)); reflexivity.
  - rewrite Hs. exact (Hp labels).
Qed.

(** ** The static totals *)

Section StaticTotals.

Context {G : Type} {I : Interp G}.

Lemma no_total_in_ticks (cfg : config) (started : Q) (n : nat)
    (state : gmap string LparState) :
  adds (Forall (fun e => is_mem_total e = false)) (run_ticks (G := G) cfg started n state).
Proof.
  apply adds_run_ticks.
  - constructor.
  - apply Forall_app_intro.
  - intros lpar s mips uptime _ _. unfold gauges. repeat constructor.
  - intros lpar addr v _ _ _ _. repeat constructor.
  - intros lpar addr v _ _. repeat constructor.
  - intros lpar service v _ _. repeat constructor.
Qed.

Lemma static_totals_emits (cfg : config) (state : gmap string LparState) (w : World G) :
  covers cfg state -> every init_ranges state ->
  emits (for_each (LPARS cfg)
           (fun lpar =>
              let* s := getitem state lpar in
              gauge_set MEM_TOTAL [lpar; SYSPLEX cfg] (inject_Z (mem_total s)))) w
    (fun _ evs =>
       length evs = length (LPARS cfg) /\
       Forall (fun e => is_mem_total e = true /\ total_is_a_tier e) evs).
Proof.
  intros Hcov Hall.
  eapply emits_conseq.
  - apply (for_each_emits (LPARS cfg) _
             (fun _ evs => exists e, evs = [e] /\ is_mem_total e = true /\ total_is_a_tier e)).
    intros lpar w1 Hin. destruct (Hcov lpar Hin) as [s Hs].
    unfold emits, returns. apply post_bind.
    apply (getitem_post state lpar s); [exact Hs|].
    unfold gauge_set. apply post_emit. simpl.
    eexists. split; [reflexivity|]. eexists. split; [reflexivity|].
    split; [reflexivity|].
    destruct (Hall lpar s Hs) as ((gib & Hg & Ht) & _).
    exists gib. split; [exact Hg | simpl; rewrite Ht; reflexivity].
  - intros _ evs (evss & -> & Hf). clear Hcov.
    induction Hf as [|lpar evs1 lpars evss (e & -> & He) Hrest IH]; simpl.
    + split; [reflexivity | constructor].
    + destruct IH as [Hlen Hok]. split; [rewrite Hlen; reflexivity|].
      constructor; assumption.
Qed.

End StaticTotals.

(** X7: the gauge of the total memory is set once for each entry of the
    list of LPARs, before the first tick, to the bytes of one of the tiers
    32, 48, 64, 96, 128 GiB; no tick sets it again. *)
Theorem X7_static_totals_set_once {G : Type} {I : Interp G} {L : InterpLaws G}
    (cfg : config) (seedv : Z) (clock : nat -> Q) (n : nat) :
  exists totals rest,
    w_sink (snd (main (G := G) cfg seedv clock n)) = totals ++ rest /\
    length totals = length (LPARS cfg) /\
    Forall (fun e => is_mem_total e = true /\ total_is_a_tier e) totals /\
    Forall (fun e => is_mem_total e = false) rest.
Proof.
  unfold main, simulate_loop.
  set (w0 := boot seedv clock).
  unfold bind at 1. unfold now at 1. cbn [fst snd].
  set (w1 := mkWorld (w_rng w0) (fun k => w_clock w0 (S k)) (w_sink w0)).
  unfold bind at 1.
  pose proof (init_state_post (LPARS cfg) w1) as Hinit.
  unfold returns, post in Hinit.
  destruct (init_state (LPARS cfg) w1) as [[st|e] w2]; [|contradiction].
  destruct Hinit as (Hcov & Hall & Hs2).
  unfold bind at 1.
  pose proof (static_totals_emits cfg st w2 Hcov Hall) as Hst.
  unfold emits, returns, post in Hst.
  destruct (for_each (LPARS cfg) _ w2) as [[u|e] w3]; [|contradiction].
  destruct Hst as (totals & Hs3 & Hlen & Htot).
  destruct (no_total_in_ticks cfg (w_clock w0 0%nat) n st w3) as (rest & Hs4 & Hrest).
  exists totals, rest. split; [|split; [exact Hlen | split; assumption]].
  rewrite Hs4, Hs3, Hs2. reflexivity.
Qed.

Lemma X7_static_totals_set_once_witness :
  exists totals rest,
    w_sink (snd (main (G := Z) demo_cfg 42 (steady_clock 5) 2)) = totals ++ rest /\
    length totals = length (LPARS demo_cfg) /\
    Forall (fun e => is_mem_total e = true /\ total_is_a_tier e) totals /\
    Forall (fun e => is_mem_total e = false) rest.
Proof.
  exact (X7_static_totals_set_once (G := Z) demo_cfg 42 (steady_clock 5) 2).
Defined.

(** ** The uptime of a tick *)

(** X8: within one iteration of the loop every LPAR is given the same
    uptime: the reading of the clock taken at the start of the iteration
    minus the start time. *)
Theorem X8_one_uptime_per_tick {G : Type} {I : Interp G} (cfg : config) (started : Q)
    (state : gmap string LparState) (w : World G) :
  exists evs,
    w_sink (snd (tick cfg started state w)) = w_sink w ++ evs /\
    Forall (uptime_is (w_clock w O - started)) evs.
Proof.
  assert (Hadds : forall t,
             adds (Forall (uptime_is (t - started)))
               (let* state' := tick_lpars (G := G) cfg (t - started) state in
                sleep (INTERVAL cfg) ;;; ret state')).
  { intro t.
    apply (adds_bind _ (Forall_app_intro _)).
    - unfold tick_lpars.
      apply (adds_fold_each _ (Forall_nil_2 _) (Forall_app_intro _)).
      intros lpar acc Hl.
      apply (adds_tick_lpar (Forall (uptime_is (t - started))) cfg
               (Forall_nil_2 _) (Forall_app_intro _)).
      + intros lp addr v _ _ _ _. repeat constructor.
      + intros lp addr v _ _. repeat constructor.
      + intros lp service v _ _. repeat constructor.
      + exact Hl.
      + intros s mips _. unfold gauges. repeat constructor.
    - intro state'.
      apply (adds_bind _ (Forall_app_intro _));
        [ apply (adds_sleep _ (Forall_nil_2 _))
        | intros _; apply (adds_ret _ (Forall_nil_2 _)) ]. }
  unfold tick. unfold bind at 1. unfold now at 1. cbn beta iota.
  destruct (Hadds (w_clock w O)
              (mkWorld (w_rng w) (fun k => w_clock w (S k)) (w_sink w)))
    as (evs & Hs & Hp).
  exists evs. split; [exact Hs | exact Hp].
Qed.

(** ** The keys of the state *)

Section Keys.

Context {G : Type} {I : Interp G}.

Lemma init_lpar_returns (w : World G) :
  returns init_lpar w (fun _ w' => w_sink w' = w_sink w).
Proof. unfold returns, init_lpar. repeat py_step. reflexivity. Qed.

Lemma init_state_keys_from (lpars : list string) :
  forall (acc : gmap string LparState) (w : World G),
    returns (fold_each lpars
               (fun lpar state => let* s := init_lpar in ret (<[lpar := s]> state))
               acc) w
      (fun state w' =>
         (forall l, (exists s, state !! l = Some s) <->
                    (In l lpars \/ exists s, acc !! l = Some s)) /\
         w_sink w' = w_sink w).
Proof.
  induction lpars as [|x rest IH]; intros acc w; unfold returns; simpl.
  - apply post_ret. split; [|reflexivity]. intro l. tauto.
  - apply post_bind. apply post_bind.
    eapply post_conseq; [apply init_lpar_returns | | auto].
    intros s w1 Hs1. simpl in *. apply post_ret.
    eapply post_conseq; [apply (IH (<[x := s]> acc) w1) | | auto].
    intros st w2 (Hkeys & Hs2). simpl in *.
    split; [|rewrite Hs2; exact Hs1].
    intro l. rewrite Hkeys. destruct (decide (x = l)) as [<-|Hne].
    + rewrite lookup_insert_eq. split; [intros _; left; left; reflexivity|].
      intros _. right. exists s. reflexivity.
    + rewrite lookup_insert_ne by exact Hne. tauto.
Qed.

End Keys.

(** X9: [init_state] makes no call on the registry and returns a state
    whose keys are the configured LPARs and no others; looking up any other
    name in it raises KeyError. *)
Theorem X9_state_keys_are_the_lpars {G : Type} {I : Interp G} (lpars : list string)
    (w : World G) :
  returns (init_state lpars) w
    (fun state w' =>
       w_sink w' = w_sink w /\
       (forall l, (exists s, state !! l = Some s) <-> In l lpars) /\
       (forall l (w2 : World G), ~ In l lpars -> getitem state l w2 = (Raise KeyError, w2))).
Proof.
  unfold init_state.
  eapply post_conseq; [apply (init_state_keys_from lpars ∅ w) | | auto].
  intros st w' (Hkeys & Hs). simpl in *.
  assert (Hk : forall l, (exists s, st !! l = Some s) <-> In l lpars).
  { intro l. rewrite Hkeys. split; [|auto].
    intros [Hin|[s Hs0]]; [exact Hin|]. rewrite lookup_empty in Hs0. discriminate. }
  split; [exact Hs|]. split; [exact Hk|].
  intros l w2 Hnot. unfold getitem.
  destruct (st !! l) as [s|] eqn:El; [|reflexivity].
  exfalso. apply Hnot. apply Hk. exists s. exact El.
Qed.

(** ** The size of a step and the derived figures, for a lawful generator *)

(** One draw of [uniform]: the value drawn is named and known to lie in its
    range, the generator that is left is named. *)
Ltac draw_step :=
  apply post_bind; apply post_draw;
  match goal with
  | |- context [uniform ?a ?b ?g] =>
      let H := fresh "Hu" in
      pose proof (uniform_range a b g ltac:(lra)) as H;
      destruct (uniform a b g) as [? ?]; cbn [fst snd w_rng] in *
  end.

(** The step of the scalars, and the MIPS consumed, as functions of the
    values drawn. *)
Lemma one_step_of_draws (s : LparState) (u1 u2 u3 u4 u5 u7 : Q) :
  in_bounds s ->
  -6 <= u1 /\ u1 <= 6 -> -6 <= u2 /\ u2 <= 6 -> -250 <= u3 /\ u3 <= 250 ->
  -3 <= u4 /\ u4 <= 3 -> -2 <= u5 /\ u5 <= 2 -> -0.7 <= u7 /\ u7 <= 0.9 ->
  one_step s
    (mkLpar (clamp (cpu s + u1 + (35 - cpu s) * 0.03) 0 100)
            (clamp (ziip s + u2 + (25 - ziip s) * 0.03) 0 100)
            (mips_cap s)
            (clamp (iops s + u3) 0 8000)
            (mem_total s)
            (clamp (mem_used s + u7 * inject_Z (1024 ^ 3))
               (inject_Z (mem_total s) * 0.30) (inject_Z (mem_total s) * 0.97))
            (clamp (jobq s + u4) 0 200)
            (clamp (cfq s + u5 + (10 - cfq s) * 0.02) 0 80)).
Proof.
  intros (Hc & Hz & Hi & Hj & Hf & Hm) H1 H2 H3 H4 H5 H7.
  unfold one_step. cbn [cpu ziip iops jobq cfq mem_used mem_total mips_cap].
  assert (HK : 0 < inject_Z (1024 ^ 3)) by q_decide.
  set (K := inject_Z (1024 ^ 3)) in *. clearbody K.
  split; [|split; [|split; [|split; [|split]]]].
  - apply (clamp_between _ 0 100 (cpu s)); lra.
  - apply (clamp_between _ 0 100 (ziip s)); lra.
  - apply (clamp_between _ 0 8000 (iops s)); lra.
  - apply (clamp_between _ 0 200 (jobq s)); lra.
  - apply (clamp_between _ 0 80 (cfq s)); lra.
  - apply (clamp_between _ _ _ (mem_used s)); try lra; nra.
Qed.

Lemma mips_of_draws (cap : Z) (c u : Q) :
  (0 <= cap)%Z -> 0 <= c /\ c <= 100 -> 0.85 <= u /\ u <= 1.15 ->
  0 <= inject_Z cap * (c / 100) * u /\
  inject_Z cap * (c / 100) * u <= inject_Z cap * 1.15.
Proof.
  intros Hcap [Hlo Hhi] [Hu0 Hu1].
  assert (Hc : 0 <= inject_Z cap).
  { change 0 with (inject_Z 0). rewrite <- Zle_Qle. exact Hcap. }
  assert (Hq0 : 0 <= c / 100) by (apply Qle_shift_div_l; lra).
  assert (Hq1 : c / 100 <= 1) by (apply Qle_shift_div_r; lra).
  set (q := c / 100) in *. clearbody q.
  set (k := inject_Z cap) in *. clearbody k.
  assert (Hp0 : 0 <= k * q) by nra.
  assert (Hp1 : k * q <= k) by nra.
  split; nra.
Qed.

(** X10: one tick moves each scalar of a record that is within its
    intervals by a bounded step: the CPU percentage by at most 7.95, the
    zIIP percentage by at most 8.25, the I/O rate by at most 250, the job
    queue depth by at most 3, the coupling-facility queue depth by at most
    3.4, and the memory used by at most 0.7 GiB down and 0.9 GiB up. *)
Theorem X10_walk_step_is_bounded {G : Type} {I : Interp G} {L : InterpLaws G}
    (s : LparState) (w : World G) :
  in_bounds s -> returns (walk s) w (fun sm _ => one_step s (fst sm)).
Proof.
  intro Hb. unfold returns, walk. do 7 draw_step. apply post_ret.
  exact (one_step_of_draws s _ _ _ _ _ _ Hb Hu Hu0 Hu1 Hu2 Hu3 Hu5).
Qed.

Lemma X10_walk_step_is_bounded_witness :
  in_bounds demo_lpar /\
  returns (walk (G := Z) demo_lpar) (boot 42 (steady_clock 5))
    (fun sm _ => one_step demo_lpar (fst sm)).
Proof.
  split; [exact demo_lpar_in_bounds|].
  apply (X10_walk_step_is_bounded (G := Z)). exact demo_lpar_in_bounds.
Defined.

(** X11: the MIPS consumed that a tick computes for a record of
    non-negative capacity is non-negative and at most 1.15 times the
    capacity. *)
Theorem X11_mips_consumed_range {G : Type} {I : Interp G} {L : InterpLaws G}
    (s : LparState) (w : World G) :
  (0 <= mips_cap s)%Z ->
  returns (walk s) w
    (fun sm _ => 0 <= snd sm /\ snd sm <= inject_Z (mips_cap s) * 1.15).
Proof.
  intro Hcap. unfold returns, walk. do 7 draw_step. apply post_ret.
  exact (mips_of_draws (mips_cap s) _ _ Hcap
           (clamp_bounds _ 0 100 ltac:(lra)) Hu4).
Qed.

Lemma X11_mips_consumed_range_witness :
  (0 <= mips_cap demo_lpar)%Z /\
  returns (walk (G := Z) demo_lpar) (boot 42 (steady_clock 5))
    (fun sm _ => 0 <= snd sm /\ snd sm <= inject_Z (mips_cap demo_lpar) * 1.15).
Proof.
  split; [vm_compute; discriminate|].
  apply (X11_mips_consumed_range (G := Z)). vm_compute. discriminate.
Defined.

(** X12: the resident memory a tick reports for an address space is between
    0.06 and 0.16 of the memory used of the LPAR, when that is
    non-negative. *)
Theorem X12_address_space_rss_range {G : Type} {I : Interp G} {L : InterpLaws G}
    (cfg : config) (lpar : string) (s : LparState) :
  0 <= mem_used s ->
  adds (Forall (rss_share_of (mem_used s))) (address_spaces (G := G) cfg lpar s).
Proof.
  intro Hm. unfold address_spaces.
  apply (adds_bind_with _ (fun _ => True)).
  - intro w. eapply post_conseq; [apply draw_weights_post | | auto].
    intros ws w' [_ Hs]. split; [exact Hs | exact Logic.I].
  - intros ws _. apply (adds_for_each _ (Forall_nil_2 _) (Forall_app_intro _)).
    intros aw _. unfold address_space, gauge_set.
    apply (adds_bind _ (Forall_app_intro _));
      [apply (adds_py_div _ (Forall_nil_2 _)) | intro share].
    apply (adds_bind _ (Forall_app_intro _));
      [apply (adds_draw _ (Forall_nil_2 _)) | intro u].
    apply (adds_bind _ (Forall_app_intro _));
      [apply adds_emit; repeat constructor | intros _].
    intro w. unfold bind, draw.
    pose proof (uniform_range 0.6 1.6 (w_rng w) ltac:(lra)) as [Hu0 Hu1].
    destruct (uniform 0.6 1.6 (w_rng w)) as [u' g']. cbn [fst] in Hu0, Hu1.
    eexists. split; [reflexivity|].
    constructor; [|constructor].
    unfold rss_share_of. cbn [e_metric e_op].
    change (inject_Z (Z.of_nat (length ADDRESS_SPACES))) with (inject_Z 10).
    assert (Hd : mem_used s / inject_Z 10 == mem_used s * 0.1) by (field; discriminate).
    rewrite Hd. split; nra.
Qed.

Lemma X12_address_space_rss_range_witness :
  0 <= mem_used demo_lpar /\
  adds (Forall (rss_share_of (mem_used demo_lpar)))
    (address_spaces (G := Z) demo_cfg "LPAR1" demo_lpar).
Proof.
  split; [q_decide|].
  apply (X12_address_space_rss_range (G := Z)). q_decide.
Defined.
